(** * The retry queue of [utils/queryQueue.ts] and the handlers around it

    A shallow embedding of the admission-controlled retry queue and the
    properties its specification states about it, followed by the request
    handlers, the error handler and the mocked event service the queue is
    used with.

    The queue is single-threaded JavaScript: every function of the source
    runs in uninterrupted synchronous segments that are separated by its
    [await]s and by [setTimeout].  Each segment is a pure function on the
    shared [QueryState]; the event loop is a transition function [step] on
    a [World] that holds the shared state and, for every invocation of the
    queued function, the continuation its closure is waiting in.  A request
    handler is a function of what its fetches do. *)

From Stdlib Require Import ZArith QArith Qpower Lia.
From stdpp Require Import gmap list strings.

Local Open Scope Z_scope.

(** ** Data model *)

(** Errors that travel through the queue.  [Thrown n] stands for whatever the
    wrapped function (or the host) throws; the queue never inspects it. *)
Inductive JsError :=
  | MaxRetriesExceeded
  | TypeError
  | Thrown (code : Z).

(** The promise handed to the caller by [new Promise(promiseExecutor)]. *)
Inductive PromiseState :=
  | Pending
  | Fulfilled (value : Z)
  | Rejected (reason : JsError).

(** An entry of [QueryState.calls].  The [func] field of the source always
    holds the one function the queue wraps, so it is not repeated here;
    [retries] is declared optional ([retries?: number]). *)
Record CallRecord := mkCall {
  args : list Z;
  timestamp : Z;
  retries : option Z
}.

Record QueryState := mkState {
  numberOfCalls : Z;
  numberOfFailures : Z;
  currentActiveCalls : gmap Z bool;
  calls : gmap Z CallRecord
}.

Definition MAX_RETRIES_PER_DAY : Z := 300.
Definition MAX_ACTIVE_CALLS : nat := 5.

(** Field updates, one per assignment form used by the source. *)
Definition setNumberOfCalls (n : Z) (q : QueryState) : QueryState :=
  mkState n (numberOfFailures q) (currentActiveCalls q) (calls q).

Definition setNumberOfFailures (n : Z) (q : QueryState) : QueryState :=
  mkState (numberOfCalls q) n (currentActiveCalls q) (calls q).

Definition setActive (a : gmap Z bool) (q : QueryState) : QueryState :=
  mkState (numberOfCalls q) (numberOfFailures q) a (calls q).

Definition setCalls (c : gmap Z CallRecord) (q : QueryState) : QueryState :=
  mkState (numberOfCalls q) (numberOfFailures q) (currentActiveCalls q) c.

Definition setRetries (n : Z) (r : CallRecord) : CallRecord :=
  mkCall (args r) (timestamp r) (Some n).

(** [record.retries || 0] *)
Definition retriesOr0 (r : CallRecord) : Z :=
  match retries r with
  | Some n => if n =? 0 then 0 else n
  | None => 0
  end.

(** ** The synchronous segments of the source *)

(** [Object.keys(queryState.currentActiveCalls).length >= MAX_ACTIVE_CALLS];
    the left operand of the [&&] is an object and therefore truthy. *)
Definition areActiveCallsFull (q : QueryState) : bool :=
  bool_decide (MAX_ACTIVE_CALLS ≤ size (currentActiveCalls q))%nat.

(** JavaScript numbers are IEEE 754 doubles.  The only non-integer
    arithmetic of the queue is [Math.pow(2, e)] for an integer [e] of at most
    3 and the sum [100 + b] with such a power; both are given here with the
    rounding a double performs, as exact rationals. *)

(** [Math.pow(2, e)]: a power of two is a double down to the least denormal,
    2^-1074; half of that is a tie between 0 and 2^-1074 and rounds to the
    even one, 0, and everything below rounds to 0 as well. *)
Definition pow2 (e : Z) : Q :=
  if e <? -1074 then 0%Q else Qpower 2 e.

(** [100 + b] for [b] a result of [pow2] that is at most 8.  The doubles
    from 64 to 128 are 2^-46 apart, and 100 is an even multiple of 2^-46: a
    [b] of at least 2^-46 is a multiple of the spacing and is added exactly;
    2^-47 is a tie and rounds to the even neighbour, 100; a smaller [b] is
    rounded away. *)
Definition plus100 (b : Q) : Q :=
  if Qle_bool (Qpower 2 (-46)) b then (100 + b)%Q else 100%Q.

(** [Math.pow(2, numberOfFailures > 3 ? 3 : numberOfFailures)].  The exponent
    is only capped from above: for a negative exponent [Math.pow] returns a
    fraction (1/2 for -1). *)
Definition backOff (q : QueryState) : Q :=
  pow2 (if 3 <? numberOfFailures q then 3 else numberOfFailures q).

(** The second argument of [setTimeout]: [isFull ? 100 + backOff : backOff]. *)
Definition timerDelay (q : QueryState) : Q :=
  if areActiveCallsFull q then plus100 (backOff q) else backOff q.

(** [attemptCallbackRun] up to its [await]: the index is marked active and
    the wrapped function is called. *)
Definition attemptCallbackRun_enter (index : Z) (q : QueryState) : QueryState :=
  setActive (<[index := true]> (currentActiveCalls q)) q.

(** [attemptCallbackRun] after the [await] returned a value: besides
    [resolve(callResult)], which acts on the caller's promise, the index is
    deleted from the active calls and [numberOfCalls] is decremented. *)
Definition attemptCallbackRun_resume (index : Z) (q : QueryState) : QueryState :=
  let q1 := setActive (delete index (currentActiveCalls q)) q in
  setNumberOfCalls (numberOfCalls q1 - 1) q1.

(** What a failure handler ends in: a timer for the next attempt, or an
    error that rejects the promise of the [async] function it ran in. *)
Inductive RetryOutcome :=
  | Rescheduled (delay : Q) (q : QueryState)
  | Raised (e : JsError) (q : QueryState).

(** [retryCallback] up to and including its [setTimeout]: it reads the state
    and arms the timer; the state itself is left as it is. *)
Definition retryCallback (index : Z) (q : QueryState) : RetryOutcome :=
  let isFull := areActiveCallsFull q in
  let backOff := backOff q in
  Rescheduled (if isFull then plus100 backOff else backOff) q.

(** [handleRunErrorsAndRetries].  Reading [.retries] of a missing record is a
    [TypeError]. *)
Definition handleRunErrorsAndRetries
    (retryFunc : Z → QueryState → RetryOutcome)
    (index : Z) (q : QueryState) : RetryOutcome :=
  match calls q !! index with
  | None => Raised TypeError q
  | Some r =>
      let currentRetryCount := retriesOr0 r in
      if MAX_RETRIES_PER_DAY <? currentRetryCount then
        let q1 := setActive (delete index (currentActiveCalls q)) q in
        let q2 := setCalls (delete index (calls q1)) q1 in
        Raised MaxRetriesExceeded q2
      else
        let q1 := setNumberOfFailures (numberOfFailures q + 1) q in
        let q2 :=
          setCalls (<[index := setRetries (currentRetryCount + 1) r]> (calls q1)) q1 in
        retryFunc index q2
  end.

(** The statement after [await attemptCallbackRun(...)] in the timer
    callback: [if ((calls[index].retries || 0) > 0) numberOfFailures--].  It
    sits inside the [try], so the [TypeError] of a missing record lands in
    the [catch], which runs the failure handler. *)
Definition afterAttempt (index : Z) (q : QueryState) : RetryOutcome + QueryState :=
  match calls q !! index with
  | None => inl (handleRunErrorsAndRetries retryCallback index q)
  | Some r =>
      if 0 <? retriesOr0 r
      then inr (setNumberOfFailures (numberOfFailures q - 1) q)
      else inr q
  end.

(** What the host does in the promise executor itself while a call is being
    registered.  The executor makes two host operations before it enters
    [retryCallback]: [Date.now()] inside the record literal, and the
    iteration of [...args] at the call of [retryCallback], which is the only
    thing the [try] around that call can see fail.  What happens when the
    body of [retryCallback] throws is [createPromiseExecutor_timerThrows]
    below. *)
Inductive Host :=
  | HostOk (now : Z)
  | ClockThrows (e : JsError)
  | SpreadThrows (now : Z) (e : JsError).

(** How the promise executor returns to [new Promise]. *)
Inductive Registration :=
  | Scheduled (callIndex : Z) (outcome : RetryOutcome)
  | Caught (callIndex : Z) (e : JsError) (q : QueryState)
  | Escaped (callIndex : Z) (e : JsError) (q : QueryState).

Definition createPromiseExecutor
    (q : QueryState) (args : list Z) (host : Host) : Registration :=
  let callIndex := numberOfCalls q in
  let register (now : Z) :=
    let q1 := setCalls (<[numberOfCalls q := mkCall args now (Some 0)]> (calls q)) q in
    setNumberOfCalls (numberOfCalls q1 + 1) q1 in
  match host with
  | ClockThrows e => Escaped callIndex e q
  | SpreadThrows now e => Caught callIndex e (register now)
  | HostOk now => Scheduled callIndex (retryCallback callIndex (register now))
  end.



(** ** The event loop *)

(** Where the closure of one invocation currently is:
    - [NoTimer]: registration threw, [retryCallback] never armed a timer;
    - [Timer d]: [setTimeout(..., d)] is pending;
    - [InFlight]: [attemptCallbackRun] is at [await func(...args)];
    - [Returned]: [attemptCallbackRun] has returned, the timer callback has
      not yet resumed after [await attemptCallbackRun(...)];
    - [Finished]: the timer callback has returned;
    - [Unhandled e]: the timer callback has thrown [e]; its promise is
      rejected and nothing observes it. *)
Inductive Stage :=
  | NoTimer
  | Timer (delay : Q)
  | InFlight
  | Returned
  | Finished
  | Unhandled (e : JsError).

(** One invocation of the queued function: the [index] captured by its
    closures, its continuation, the promise returned to the caller, and a
    counter of how often the wrapped function was called for it. *)
Record Chain := mkChain {
  index : Z;
  stage : Stage;
  promise : PromiseState;
  attempts : nat
}.

Record World := mkWorld {
  queryState : QueryState;
  chains : list Chain
}.

(** What the event loop can run next: a caller invoking the queued function,
    the timer of chain [c] elapsing, the wrapped function's promise for
    chain [c] being fulfilled or rejected (a synchronous throw of the
    wrapped function takes the same path), and the timer callback of chain
    [c] resuming after a successful attempt.  Callers and other chains may
    run between [FuncFulfils c] and [Continue c]: the continuation of
    [await attemptCallbackRun(...)] is queued behind the reactions to
    [resolve(callResult)]. *)
Inductive Event :=
  | Invoke (args : list Z) (host : Host)
  | TimerFires (c : nat)
  | FuncFulfils (c : nat) (value : Z)
  | FuncRejects (c : nat) (e : JsError)
  | Continue (c : nat).

(** [resolve(callResult)]: settles a pending promise, and does nothing to a
    settled one. *)
Definition resolve (v : Z) (p : PromiseState) : PromiseState :=
  match p with
  | Pending => Fulfilled v
  | _ => p
  end.

(** The state [queryQueue] starts from. *)
Definition initialState : QueryState := mkState 0 0 ∅ ∅.

Definition initialWorld : World := mkWorld initialState [].

(** The continuation a failure handler leaves behind. *)
Definition stageOf (o : RetryOutcome) : Stage :=
  match o with
  | Rescheduled d _ => Timer d
  | Raised e _ => Unhandled e
  end.

Definition stateOf (o : RetryOutcome) : QueryState :=
  match o with
  | Rescheduled _ q => q
  | Raised _ q => q
  end.

(** [new Promise(createPromiseExecutor(queryState, func, args))]: an executor
    that throws rejects the promise under construction. *)
Definition queued (args : list Z) (host : Host) (w : World) : World :=
  match createPromiseExecutor (queryState w) args host with
  | Scheduled i o =>
      mkWorld (stateOf o) (chains w ++ [mkChain i (stageOf o) Pending 0])
  | Caught i e q =>
      mkWorld q (chains w ++ [mkChain i NoTimer (Rejected e) 0])
  | Escaped i e q =>
      mkWorld q (chains w ++ [mkChain i NoTimer (Rejected e) 0])
  end.


Definition update (c : nat) (ch : Chain) (q : QueryState) (w : World) : World :=
  mkWorld q (<[c := ch]> (chains w)).

(** One turn of the event loop.  [None] means that the event cannot happen in
    [w]: the chain does not exist or is not waiting for it. *)
Definition step (w : World) (ev : Event) : option World :=
  match ev with
  | Invoke args host => Some (queued args host w)
  | TimerFires c =>
      match chains w !! c with
      | Some (mkChain i (Timer _) p n) =>
          Some (update c (mkChain i InFlight p (S n))
                  (attemptCallbackRun_enter i (queryState w)) w)
      | _ => None
      end
  | FuncFulfils c v =>
      match chains w !! c with
      | Some (mkChain i InFlight p n) =>
          Some (update c (mkChain i Returned (resolve v p) n)
                  (attemptCallbackRun_resume i (queryState w)) w)
      | _ => None
      end
  | FuncRejects c _ =>
      match chains w !! c with
      | Some (mkChain i InFlight p n) =>
          let o := handleRunErrorsAndRetries retryCallback i (queryState w) in
          Some (update c (mkChain i (stageOf o) p n) (stateOf o) w)
      | _ => None
      end
  | Continue c =>
      match chains w !! c with
      | Some (mkChain i Returned p n) =>
          match afterAttempt i (queryState w) with
          | inl o => Some (update c (mkChain i (stageOf o) p n) (stateOf o) w)
          | inr q => Some (update c (mkChain i Finished p n) q w)
          end
      | _ => None
      end
  end.

Fixpoint run (w : World) (evs : list Event) : option World :=
  match evs with
  | [] => Some w
  | ev :: evs' =>
      match step w ev with
      | Some w' => run w' evs'
      | None => None
      end
  end.

(** The worlds the queue can be in. *)
Definition reachable (w : World) : Prop :=
  ∃ evs, run initialWorld evs = Some w.

(** A chain that is not waiting for any event: its registration failed, it
    is done, or its callback ended in an error nobody observes. *)
Definition settled (st : Stage) : Prop :=
  match st with
  | NoTimer | Finished | Unhandled _ => True
  | Timer _ | InFlight | Returned => False
  end.

(** A promise is rejected only for a chain whose registration failed. *)
Definition rejectedOnlyUnscheduled (w : World) : Prop :=
  ∀ c ch e,
    chains w !! c = Some ch → promise ch = Rejected e →
    stage ch = NoTimer ∧ attempts ch = 0%nat.

(** ** The facade *)

(** [queryQueue(func)] builds a [queryState] object and returns a closure
    over it.  The object is a cell of a store: a location stands for the
    returned function, and calling that function reads and writes the cell
    the location names. *)
Module Facade.

Definition queryQueue (h : gmap nat World) : nat * gmap nat World :=
  let l := fresh (dom h) in
  (l, <[l := initialWorld]> h).

(** Calling the function returned by [queryQueue]; the result names the
    promise it returns (a chain of the queue's world). *)
Definition call (l : nat) (args : list Z) (host : Host) (h : gmap nat World)
  : option (nat * gmap nat World) :=
  match h !! l with
  | Some w => Some (length (chains w), <[l := queued args host w]> h)
  | None => None
  end.

End Facade.

(** ** Scenarios *)

(** A store with two queues, at locations 0 and 1. *)
Definition twoQueues : gmap nat World :=
  (Facade.queryQueue (Facade.queryQueue ∅).2).2.


(** [n] attempts of chain [c], each of which the wrapped function fails. *)
Fixpoint failing (c : nat) (n : nat) : list Event :=
  match n with
  | O => []
  | S k => TimerFires c :: FuncRejects c (Thrown 503) :: failing c k
  end.

(** One call to a fresh queue whose unit of work always fails, followed
    through [n] attempts. *)
Definition alwaysFailing (n : nat) : list Event :=
  Invoke [1] (HostOk 1000) :: failing 0 n.

(** Three calls.  The first two are made together and both attempts start.
    The first completes, and the third call is made while the attempt of
    the second is still under way: the third is given the index of the
    second.  The second then fails once and succeeds at its retry; the
    unit of work of the third succeeds at its first attempt. *)
Definition sharedIndexAttempts : list Event :=
  [ Invoke [1] (HostOk 10); Invoke [2] (HostOk 10);
    TimerFires 0; TimerFires 1;
    FuncFulfils 0 200; Continue 0;
    Invoke [3] (HostOk 20); TimerFires 2;
    FuncRejects 1 (Thrown 503);
    TimerFires 1; FuncFulfils 1 200; Continue 1;
    FuncFulfils 2 200 ].

(** The same, followed to the end of the third call's timer callback. *)
Definition sharedIndex : list Event :=
  sharedIndexAttempts ++ [Continue 2].

(** A call that runs to completion, *)
Definition completed : list Event :=
  [ Invoke [1] (HostOk 10); TimerFires 0; FuncFulfils 0 200; Continue 0 ].

(** and a second call made after that. *)
Definition reuse : list Event :=
  completed ++ [Invoke [2] (HostOk 20)].

(** Five calls, each attempted once and failed. *)
Definition fiveWaiting : list Event :=
  [ Invoke [0] (HostOk 1); Invoke [1] (HostOk 1); Invoke [2] (HostOk 1);
    Invoke [3] (HostOk 1); Invoke [4] (HostOk 1);
    TimerFires 0; TimerFires 1; TimerFires 2; TimerFires 3; TimerFires 4;
    FuncRejects 0 (Thrown 503); FuncRejects 1 (Thrown 503);
    FuncRejects 2 (Thrown 503); FuncRejects 3 (Thrown 503);
    FuncRejects 4 (Thrown 503) ].

(** The world a scenario leads to. *)
Definition worldAfter (evs : list Event) : World :=
  default initialWorld (run initialWorld evs).

(** Every armed timer waits for at most 108 time units. *)
Definition timersBounded (w : World) : Prop :=
  ∀ c ch d, chains w !! c = Some ch → stage ch = Timer d → (d <= 108)%Q.

(** ** The unit of work of the v2 route: [addEventHandler]

    [services/server.ts] wraps [addEventHandler] with [queryQueue].  The
    handler is a function of what [fetch] and [resp.json()] do; the error
    handler of [services/api-middleware.ts] turns what it throws into the
    HTTP response. *)

(** A value produced by [JSON.parse]; the keys of an object are distinct. *)
Unset Elimination Schemes.
Inductive Json :=
  | JNull
  | JBool (b : bool)
  | JNum (n : Q)
  | JStr (s : string)
  | JArr (items : list Json)
  | JObj (fields : list (string * Json)).
Set Elimination Schemes.

(** [ApiError]: an [Error] with [statusCode], [code] and [details]. *)
Record ApiError := mkApiError {
  message : string;
  statusCode : Z;
  code : string;
  details : option Json
}.

(** What can be thrown: an [ApiError], another [Error] (with its message,
    and whether it carries a truthy [statusCode] property), or a value that
    is not an [Error]. *)
Inductive Exn :=
  | OwnError (e : ApiError)
  | ForeignError (msg : string) (hasStatusCode : bool)
  | NotAnError.

Definition createBadRequestError (m : string) (d : option Json) : ApiError :=
  mkApiError m 400 "BAD_REQUEST" d.

Definition createInternalServerError (m : string) : ApiError :=
  mkApiError m 500 "INTERNAL_SERVER_ERROR" None.

Definition createServiceUnavailableError (m : string) : ApiError :=
  mkApiError m 503 "SERVICE_UNAVAILABLE" None.

(** [s.includes(sub)] *)
Fixpoint includes (s sub : string) : bool :=
  if String.prefix sub s then true
  else match s with
       | EmptyString => false
       | String _ s' => includes s' sub
       end.

(** JavaScript truthiness of a parsed value. *)
Definition truthy (j : Json) : bool :=
  match j with
  | JNull => false
  | JBool b => b
  | JNum n => negb (Qnum n =? 0)
  | JStr s => negb (String.eqb s "")
  | JArr _ | JObj _ => true
  end.

(** [data[key]] on the fields of an object; [None] is [undefined]. *)
Fixpoint field (key : string) (fields : list (string * Json)) : option Json :=
  match fields with
  | [] => None
  | (k, v) :: rest => if String.eqb k key then Some v else field key rest
  end.

(** [a || b] on possibly undefined values. *)
Definition orElse (a b : option Json) : option Json :=
  match a with
  | Some j => if truthy j then a else b
  | None => b
  end.

Inductive JsonOutcome :=
  | JsonParsed (data : Json)
  | JsonRejects (e : Exn).

Inductive FetchOutcome :=
  | FetchRejects (e : Exn)
  | FetchResponds (ok : bool) (status : Z) (body : JsonOutcome).

Inductive HandlerResult :=
  | Sent (data : Json)
  | Threw (e : Exn).

Section Handler.

(** Two functions of the engine: the conversion of a value that is not a
    string to a string, in template literals and in the constructor of
    [Error], and the message of the [TypeError] that ["success" in data]
    throws for a [data] that is not an object. *)
Variable toString : Json → string.
Variable inOperatorMessage : Json → string.

Definition render (j : Json) : string :=
  match j with
  | JStr s => s
  | _ => toString j
  end.

(** The body of the [try] of [addEventHandler]. *)
Definition addEventHandler_try (f : FetchOutcome) : HandlerResult :=
  match f with
  | FetchRejects e => Threw e
  | FetchResponds ok status body =>
      if negb ok then
        if 500 <=? status then
          Threw (OwnError (createServiceUnavailableError
                             "External event service is unavailable"))
        else if status =? 400 then
          Threw (OwnError (createBadRequestError
                             "Invalid event data provided" None))
        else if status =? 408 then
          Threw (OwnError (createInternalServerError
                             "Request to event service timed out"))
        else
          Threw (OwnError (createInternalServerError
                             ("Event service responded with status "
                              +:+ render (JNum (inject_Z status)))))
      else
        match body with
        | JsonRejects e => Threw e
        | JsonParsed data =>
            match data with
            | JObj fields =>
                match field "success" fields with
                | Some success =>
                    if negb (truthy success) then
                      let errorMessage :=
                        match orElse (orElse (field "message" fields)
                                        (field "error" fields))
                                (Some (JStr "Failed to create event")) with
                        | Some j => render j
                        | None => "Failed to create event"
                        end in
                      Threw (OwnError (createBadRequestError errorMessage
                                         (Some data)))
                    else Sent data
                | None =>
                    Threw (OwnError (createInternalServerError
                                       "Invalid response format from event service"))
                end
            | JArr _ =>
                Threw (OwnError (createInternalServerError
                                   "Invalid response format from event service"))
            | _ => Threw (ForeignError (inOperatorMessage data) false)
            end
        end
  end.

(** The [catch] of [addEventHandler]. *)
Definition addEventHandler_catch (error : Exn) : Exn :=
  let wrap (m : string) :=
    if includes m "fetch"
    then OwnError (createServiceUnavailableError
                     "Unable to connect to event service")
    else OwnError (createInternalServerError
                     ("Event creation failed: " +:+ m)) in
  match error with
  | OwnError e => if statusCode e =? 0 then wrap (message e) else error
  | ForeignError m true => error
  | ForeignError m false => wrap m
  | NotAnError =>
      OwnError (createInternalServerError
                  "Unknown error occurred while creating event")
  end.

Definition addEventHandler (f : FetchOutcome) : HandlerResult :=
  match addEventHandler_try f with
  | Sent data => Sent data
  | Threw e => Threw (addEventHandler_catch e)
  end.

End Handler.

(** [createErrorResponse] and [errorHandler] of [api-middleware.ts], on the
    errors [addEventHandler] throws: the status of the reply and the
    [error] object of its body ([timestamp] and [path] are left out). *)
Record ErrorBody := mkErrorBody {
  bodyMessage : string;
  bodyCode : option string;
  bodyStatusCode : Z;
  bodyDetails : option Json
}.

Inductive LogLevel := LogError | LogWarn.

Definition createErrorResponse (e : ApiError) : ErrorBody :=
  mkErrorBody
    (if String.eqb (message e) "" then "Internal Server Error" else message e)
    (Some (code e))
    (if statusCode e =? 0 then 500 else statusCode e)
    (details e).

Definition errorHandler (e : ApiError) : option LogLevel * Z * ErrorBody :=
  let errorResponse := createErrorResponse e in
  let statusCode := bodyStatusCode errorResponse in
  let logged :=
    if 500 <=? statusCode then Some LogError
    else if 400 <=? statusCode then Some LogWarn
    else None in
  (logged, statusCode, errorResponse).

(** ** The mocked event service

    [mock-server/index.ts] answers [POST /addEvent] from a request counter:
    the updated counter and whether the request is served ([200] with
    [success: true]) or refused ([503] with [success: false]). *)
Definition mockAddEvent (requestCount : Z) : bool * Z :=
  let requestCount := requestCount + 1 in
  if (requestCount <=? 5) || (requestCount =? 0) then (true, requestCount)
  else (false, if 15 <=? requestCount then 0 else requestCount).

(** The counter after [n] requests, and the answers to them. *)
Fixpoint mockRequests (n : nat) (requestCount : Z) : list bool * Z :=
  match n with
  | O => ([], requestCount)
  | S n' =>
      let (served, rc) := mockAddEvent requestCount in
      let (rest, rc') := mockRequests n' rc in
      (served :: rest, rc')
  end.

(** What [fetch] yields for an answer of the mocked service. *)
Definition mockResponse (served : bool) : FetchOutcome :=
  if served
  then FetchResponds true 200 (JsonParsed (JObj [("success", JBool true)]))
  else FetchResponds false 503
         (JsonParsed (JObj [("success", JBool false);
                            ("error", JStr "Service temporarily unavailable");
                            ("message", JStr "Event API is experiencing high load")])).


(** What [fetch] and [resp.json()] themselves throw: an [Error] without a
    [statusCode], or something that is not an [Error]. *)
Definition upstreamError (e : Exn) : Prop :=
  match e with
  | ForeignError _ false | NotAnError => True
  | ForeignError _ true | OwnError _ => False
  end.

Definition plainFetch (f : FetchOutcome) : Prop :=
  match f with
  | FetchRejects e => upstreamError e
  | FetchResponds _ _ (JsonRejects e) => upstreamError e
  | FetchResponds _ _ (JsonParsed _) => True
  end.

(** The three kinds of error the handler makes. *)
Definition handlerError (e : ApiError) : Prop :=
  (statusCode e = 400 ∧ code e = "BAD_REQUEST")
  ∨ (statusCode e = 500 ∧ code e = "INTERNAL_SERVER_ERROR")
  ∨ (statusCode e = 503 ∧ code e = "SERVICE_UNAVAILABLE").

Section QueuedHandler.

Variable toString : Json → string.
Variable inOperatorMessage : Json → string.

(** How the values of the unit of work are numbered in the queue's world. *)
Variable encode : Json → Z.



End QueuedHandler.

(** A burst: the queued function is invoked once for each element of
    [invocations] (arguments and time) before anything else happens. *)
Definition burst (invocations : list (list Z * Z)) : list Event :=
  (λ i, Invoke i.1 (HostOk i.2)) <$> invocations.

(** The chains a burst adds to a queue whose numberOfCalls is [first]: one
    per invocation, with consecutive indices and all with the same delay. *)
Fixpoint burstChains (first : Z) (delay : Q) (n : nat) : list Chain :=
  match n with
  | O => []
  | S n' => mkChain first (Timer delay) Pending 0
            :: burstChains (first + 1) delay n'
  end.

(** ** [getEventsByUserIdHandler]

    The handler of [request/get-events-by-user-id.ts] as a function of its
    route parameter and of what its fetches do. *)

Definition createNotFoundError (resource : string) : ApiError :=
  mkApiError (resource +:+ " not found") 404 "NOT_FOUND" None.

(** What the fetch of one event does. *)
Inductive EventOutcome :=
  | EventRejects (e : Exn)
  | EventResponds (ok : bool) (status : Z) (body : JsonOutcome).

(** What the fetch of the user does; [userData.events] is given with, for
    each event id, the outcome of the fetch the loop will make for it. *)
Inductive UserBody :=
  | UserJsonRejects (e : Exn)
  | UserParsed (events : list (Json * EventOutcome)).

Inductive UserOutcome :=
  | UserRejects (e : Exn)
  | UserResponds (ok : bool) (status : Z) (body : UserBody).

(** [fetchError instanceof Error ? fetchError.message : 'Unknown error'] *)
Definition messageOf (e : Exn) : string :=
  match e with
  | OwnError a => message a
  | ForeignError m _ => m
  | NotAnError => "Unknown error"
  end.

(** An event whose fetch answers 404 is skipped and reported as missing. *)
Definition isMissing (o : EventOutcome) : bool :=
  match o with
  | EventResponds ok status _ => negb ok && (status =? 404)
  | EventRejects _ => false
  end.

Section EventsByUser.

Variable toString : Json → string.

(** [isNaN(Number(id))], a function of the engine. *)
Variable isNaNNumber : string → bool.

(** The [for] loop, with its two accumulators; [inl] is the error thrown by
    the [catch] inside the loop. *)
Fixpoint fetchEachEvent (userEvents : list (Json * EventOutcome))
    (eventArray failedEvents : list Json)
  : ApiError + (list Json * list Json) :=
  match userEvents with
  | [] => inr (eventArray, failedEvents)
  | (eventId, outcome) :: rest =>
      let failed (e : Exn) :=
        inl (createInternalServerError
               ("Failed to fetch event " +:+ render toString eventId +:+ ": "
                +:+ messageOf e)) in
      match outcome with
      | EventRejects e => failed e
      | EventResponds ok status body =>
          if negb ok && (status =? 404)
          then fetchEachEvent rest eventArray (failedEvents ++ [eventId])
          else match body with
               | JsonRejects e => failed e
               | JsonParsed eventData =>
                   fetchEachEvent rest (eventArray ++ [eventData]) failedEvents
               end
      end
  end.

(** The reply: the array alone when no event is missing. *)
Definition eventsReply (eventArray failedEvents : list Json) : Json :=
  match failedEvents with
  | [] => JArr eventArray
  | _ =>
      JObj [("events", JArr eventArray);
            ("warnings",
             JObj [("missingEvents", JArr failedEvents);
                   ("message",
                    JStr (render toString
                            (JNum (inject_Z (Z.of_nat (length failedEvents))))
                          +:+ " event(s) could not be found"))])]
  end.

Definition getEventsByUserId_try (user : UserOutcome) : HandlerResult :=
  match user with
  | UserRejects e => Threw e
  | UserResponds ok status body =>
      if negb ok then
        if status =? 404 then Threw (OwnError (createNotFoundError "User"))
        else Threw (OwnError (createInternalServerError
                                "Failed to fetch user data"))
      else
        match body with
        | UserJsonRejects e => Threw e
        | UserParsed userEvents =>
            match fetchEachEvent userEvents [] [] with
            | inl a => Threw (OwnError a)
            | inr (eventArray, failedEvents) =>
                Sent (eventsReply eventArray failedEvents)
            end
        end
  end.

Definition getEventsByUserId_catch (error : Exn) : Exn :=
  match error with
  | OwnError a =>
      if statusCode a =? 0
      then OwnError (createInternalServerError "Failed to fetch user events")
      else error
  | ForeignError _ true => error
  | _ => OwnError (createInternalServerError "Failed to fetch user events")
  end.

Definition getEventsByUserIdHandler (id : string) (user : UserOutcome)
  : HandlerResult :=
  if String.eqb id "" || isNaNNumber id
  then Threw (OwnError (createNotFoundError "User"))
  else match getEventsByUserId_try user with
       | Sent data => Sent data
       | Threw e => Threw (getEventsByUserId_catch e)
       end.

End EventsByUser.

(** The bodies of the events that are not missing, in order. *)
Fixpoint foundBodies (userEvents : list (Json * EventOutcome)) : list Json :=
  match userEvents with
  | [] => []
  | (_, EventResponds ok status (JsonParsed d)) :: rest =>
      if negb ok && (status =? 404) then foundBodies rest
      else d :: foundBodies rest
  | _ :: rest => foundBodies rest
  end.

(** The ids of the missing events, in order. *)
Fixpoint missingIds (userEvents : list (Json * EventOutcome)) : list Json :=
  match userEvents with
  | [] => []
  | (eventId, o) :: rest =>
      if isMissing o then eventId :: missingIds rest else missingIds rest
  end.

(** The fetch of an event answered: with 404, or with a body that parsed. *)
Definition answered (o : EventOutcome) : Prop :=
  match o with
  | EventRejects _ => False
  | EventResponds ok status body =>
      negb ok && (status =? 404) = true ∨ ∃ d, body = JsonParsed d
  end.

Definition plainUser (user : UserOutcome) : Prop :=
  match user with
  | UserRejects e => upstreamError e
  | UserResponds _ _ (UserJsonRejects e) => upstreamError e
  | UserResponds _ _ (UserParsed _) => True
  end.

(** ** [getEventsHandler] and [getUsersHandler]

    The two list handlers, each a function of what its fetch does. *)
Section ListHandlers.

Variable toString : Json → string.

Definition getEventsHandler (f : FetchOutcome) : HandlerResult :=
  let attempt :=
    match f with
    | FetchRejects e => Threw e
    | FetchResponds ok status body =>
        if negb ok then
          if 500 <=? status then
            Threw (OwnError (createServiceUnavailableError
                               "Events service is unavailable"))
          else
            Threw (OwnError (createInternalServerError
                               ("Events service responded with status "
                                +:+ render toString (JNum (inject_Z status)))))
        else match body with
             | JsonRejects e => Threw e
             | JsonParsed data => Sent data
             end
    end in
  match attempt with
  | Sent data => Sent data
  | Threw (OwnError a) =>
      if statusCode a =? 0 then
        if includes (message a) "fetch"
        then Threw (OwnError (createServiceUnavailableError
                                "Unable to connect to events service"))
        else Threw (OwnError (createInternalServerError "Failed to fetch events"))
      else Threw (OwnError a)
  | Threw (ForeignError m true) => Threw (ForeignError m true)
  | Threw (ForeignError m false) =>
      if includes m "fetch"
      then Threw (OwnError (createServiceUnavailableError
                              "Unable to connect to events service"))
      else Threw (OwnError (createInternalServerError "Failed to fetch events"))
  | Threw NotAnError =>
      Threw (OwnError (createInternalServerError "Failed to fetch events"))
  end.

Definition getUsersHandler (f : FetchOutcome) : HandlerResult :=
  let attempt :=
    match f with
    | FetchRejects e => Threw e
    | FetchResponds ok status body =>
        if negb ok then
          if 500 <=? status then
            Threw (OwnError (createServiceUnavailableError
                               "Users service is unavailable"))
          else
            Threw (OwnError (createInternalServerError
                               ("Users service responded with status "
                                +:+ render toString (JNum (inject_Z status)))))
        else match body with
             | JsonRejects e => Threw e
             | JsonParsed data => Sent data
             end
    end in
  match attempt with
  | Sent data => Sent data
  | Threw (OwnError a) =>
      if statusCode a =? 0 then
        if includes (message a) "fetch"
        then Threw (OwnError (createServiceUnavailableError
                                "Unable to connect to users service"))
        else Threw (OwnError (createInternalServerError "Failed to fetch users"))
      else Threw (OwnError a)
  | Threw (ForeignError m true) => Threw (ForeignError m true)
  | Threw (ForeignError m false) =>
      if includes m "fetch"
      then Threw (OwnError (createServiceUnavailableError
                              "Unable to connect to users service"))
      else Threw (OwnError (createInternalServerError "Failed to fetch users"))
  | Threw NotAnError =>
      Threw (OwnError (createInternalServerError "Failed to fetch users"))
  end.

End ListHandlers.

(** The failures a list handler reports as an unavailable service: a
    response that is not ok with a status of 500 or more, and a failure of
    [fetch] or of [resp.json()] with an [Error] whose message contains
    "fetch". *)
Definition unavailable (f : FetchOutcome) : Prop :=
  (∃ status body, f = FetchResponds false status body ∧ 500 ≤ status)
  ∨ (∃ m, (f = FetchRejects (ForeignError m false)
           ∨ ∃ status, f = FetchResponds true status
                             (JsonRejects (ForeignError m false)))
          ∧ includes m "fetch" = true).

(** An ok response whose body parses. *)
Definition delivered (f : FetchOutcome) : Prop :=
  ∃ status data, f = FetchResponds true status (JsonParsed data).

(** ** Predicates on worlds *)

(** Every stored record has a retry count, between 0 and one more than the
    cap. *)
Definition recordsBounded (q : QueryState) : Prop :=
  ∀ i r,
    calls q !! i = Some r →
    ∃ n, retries r = Some n ∧ 0 ≤ n ≤ MAX_RETRIES_PER_DAY + 1.

(** What the promise of a chain is, given where its closure stands. *)
Definition wellStaged (ch : Chain) : Prop :=
  match stage ch with
  | NoTimer => (∃ e, promise ch = Rejected e) ∧ attempts ch = 0%nat
  | Timer _ => promise ch = Pending
  | InFlight => promise ch = Pending ∧ (1 ≤ attempts ch)%nat
  | Returned | Finished =>
      (∃ v, promise ch = Fulfilled v) ∧ (1 ≤ attempts ch)%nat
  | Unhandled MaxRetriesExceeded =>
      promise ch = Pending ∧ (1 ≤ attempts ch)%nat
  | Unhandled TypeError =>
      (promise ch = Pending ∨ ∃ v, promise ch = Fulfilled v)
      ∧ (1 ≤ attempts ch)%nat
  | Unhandled (Thrown _) => False
  end.

Definition allWellStaged (w : World) : Prop :=
  ∀ c ch, chains w !! c = Some ch → wellStaged ch.

(** The sum of a quantity over the calls made so far. *)
Fixpoint total (f : Chain → Z) (l : list Chain) : Z :=
  match l with
  | [] => 0
  | ch :: l' => f ch + total f l'
  end.

Definition pendingUnit (ch : Chain) : Z :=
  match promise ch with
  | Pending => 1
  | _ => 0
  end.

(** The number of calls whose promise is neither fulfilled nor rejected. *)
Definition pendingCalls (w : World) : Z := total pendingUnit (chains w).

(** The number of invocations in which the spread of the arguments threw,
    that is, after the record was stored and the counter incremented. *)
Fixpoint spreadFaults (evs : list Event) : Z :=
  match evs with
  | [] => 0
  | Invoke _ (SpreadThrows _ _) :: evs' => 1 + spreadFaults evs'
  | _ :: evs' => spreadFaults evs'
  end.

(** Every active-call entry is [true] and belongs to a call that has been
    attempted and whose promise is pending. *)
Definition activeOwned (w : World) : Prop :=
  ∀ i b,
    currentActiveCalls (queryState w) !! i = Some b →
    b = true
    ∧ ∃ c ch,
        chains w !! c = Some ch ∧ index ch = i
        ∧ promise ch = Pending ∧ (1 ≤ attempts ch)%nat.

(** Two calls that share index 1, the older of which exhausts its retries
    while the younger waits for its first attempt. *)
Definition sharedThenExhausted : list Event :=
  [ Invoke [1] (HostOk 10); Invoke [2] (HostOk 10);
    TimerFires 0; FuncFulfils 0 200; Continue 0;
    Invoke [3] (HostOk 20) ]
  ++ failing 1 302.

(** One call that fails once and then succeeds, made by a caller that calls
    again as soon as its promise is resolved. *)
Definition sequentialCaller : list Event :=
  [ Invoke [1] (HostOk 10); TimerFires 0; FuncRejects 0 (Thrown 503);
    TimerFires 0; FuncFulfils 0 200 ].

(** A call that has not run to its end and whose record shows a retry count
    above 0 has one failure to give back. *)
Definition owed (q : QueryState) (ch : Chain) : Z :=
  match stage ch with
  | Timer _ | InFlight | Returned =>
      match calls q !! index ch with
      | Some r => if 0 <? retriesOr0 r then 1 else 0
      | None => 0
      end
  | NoTimer | Finished | Unhandled _ => 0
  end.

Definition failuresCoverOwed (w : World) : Prop :=
  total (owed (queryState w)) (chains w) ≤ numberOfFailures (queryState w).

(** A queue with a single call, made with [a] at time [now], that has failed
    [m] times and waits for its next attempt. *)
Definition loneCall (a : list Z) (now : Z) (m : nat) (w : World) : Prop :=
  numberOfCalls (queryState w) = 1
  ∧ numberOfFailures (queryState w) = Z.of_nat m
  ∧ calls (queryState w) !! 0 = Some (mkCall a now (Some (Z.of_nat m)))
  ∧ (∀ j, j ≠ 0 → currentActiveCalls (queryState w) !! j = None)
  ∧ ∃ d, chains w = [mkChain 0 (Timer d) Pending m].

(** One call on a fresh queue whose unit of work fails [k] times and then
    returns [v]. *)
Definition failsThenSucceeds (a : list Z) (now : Z) (k : nat) (v : Z)
  : list Event :=
  Invoke a (HostOk now) :: failing 0 k
  ++ [TimerFires 0; FuncFulfils 0 v; Continue 0].

(** ** Elementary facts *)

(** Closed goals about scenarios are settled by running them. *)
Ltac by_evaluation := vm_compute; reflexivity.

Ltac conjuncts := repeat match goal with |- _ ∧ _ => split end.

Lemma retryCallback_delay (i : Z) (q : QueryState) :
  retryCallback i q = Rescheduled (timerDelay q) q.
Proof. reflexivity. Qed.

Lemma capped_exponent (n : Z) : (if 3 <? n then 3 else n) = Z.min n 3.
Proof. destruct (Z.ltb_spec 3 n); lia. Qed.

Lemma pow2_exact (e : Z) : -1074 ≤ e → pow2 e = Qpower 2 e.
Proof. intros He. unfold pow2. destruct (Z.ltb_spec e (-1074)); [lia | done]. Qed.

Lemma pow2_nonneg (e : Z) : (0 <= pow2 e)%Q.
Proof.
  unfold pow2. destruct (e <? -1074); [discriminate |].
  apply Qlt_le_weak, Qpower_0_lt. reflexivity.
Qed.

Lemma pow2_mono (e1 e2 : Z) : e1 ≤ e2 → (pow2 e1 <= pow2 e2)%Q.
Proof.
  intros Hle. destruct (Z.ltb_spec e1 (-1074)) as [Hlow | Hok].
  - unfold pow2 at 1. destruct (Z.ltb_spec e1 (-1074)); [| lia]. apply pow2_nonneg.
  - rewrite !pow2_exact by lia. apply Qpower_le_compat_l; [lia | discriminate].
Qed.

Lemma plus100_exact (b : Q) : (Qpower 2 (-46) <= b)%Q → plus100 b = (100 + b)%Q.
Proof.
  intros Hb. unfold plus100.
  destruct (Qle_bool (Qpower 2 (-46)) b) eqn:Hcmp; [done |].
  apply Qle_bool_iff in Hb. congruence.
Qed.

Lemma plus100_rounded (b : Q) : (b < Qpower 2 (-46))%Q → plus100 b = 100%Q.
Proof.
  intros Hb. unfold plus100.
  destruct (Qle_bool (Qpower 2 (-46)) b) eqn:Hcmp; [| done].
  apply Qle_bool_iff in Hcmp. by apply Qle_not_lt in Hcmp.
Qed.

Lemma plus100_ge_100 (b : Q) : (100 <= plus100 b)%Q.
Proof.
  unfold plus100. destruct (Qle_bool (Qpower 2 (-46)) b) eqn:Hcmp.
  - apply Qle_bool_iff in Hcmp.
    assert (0 <= b)%Q as Hnn by (eapply Qle_trans; [| exact Hcmp]; discriminate).
    rewrite <- (Qplus_0_r 100) at 1. by apply Qplus_le_r.
  - apply Qle_refl.
Qed.

Lemma plus100_mono (b1 b2 : Q) : (b1 <= b2)%Q → (plus100 b1 <= plus100 b2)%Q.
Proof.
  intros Hle. unfold plus100 at 1.
  destruct (Qle_bool (Qpower 2 (-46)) b1) eqn:Hcmp.
  - apply Qle_bool_iff in Hcmp.
    rewrite plus100_exact by (eapply Qle_trans; eassumption).
    by apply Qplus_le_r.
  - apply plus100_ge_100.
Qed.

Lemma plus100_le_108 (b : Q) : (b <= 8)%Q → (plus100 b <= 108)%Q.
Proof.
  intros Hb. unfold plus100. destruct (Qle_bool (Qpower 2 (-46)) b).
  - change 108%Q with (100 + 8)%Q. by apply Qplus_le_r.
  - discriminate.
Qed.

Lemma backOff_min (q : QueryState) :
  -1074 ≤ numberOfFailures q →
  backOff q = Qpower 2 (Z.min (numberOfFailures q) 3).
Proof.
  intros Hnf. unfold backOff. rewrite capped_exponent. apply pow2_exact. lia.
Qed.


Lemma backOff_mono (q1 q2 : QueryState) :
  numberOfFailures q1 ≤ numberOfFailures q2 → (backOff q1 <= backOff q2)%Q.
Proof.
  intros Hle. unfold backOff. rewrite !capped_exponent.
  apply pow2_mono. lia.
Qed.

Lemma backOff_le_8 (q : QueryState) : (backOff q <= 8)%Q.
Proof.
  unfold backOff. rewrite capped_exponent.
  change 8%Q with (pow2 3).
  apply pow2_mono. lia.
Qed.

Lemma backOff_nonneg (q : QueryState) : (0 <= backOff q)%Q.
Proof. apply pow2_nonneg. Qed.

Lemma backOff_saturates (q : QueryState) :
  3 ≤ numberOfFailures q → backOff q = 8%Q.
Proof. intros Hge. rewrite backOff_min, Z.min_r by lia. reflexivity. Qed.

Lemma backOff_ge_1 (q : QueryState) :
  0 ≤ numberOfFailures q → (1 <= backOff q)%Q.
Proof.
  intros Hnn. rewrite backOff_min by lia.
  change 1%Q with (Qpower 2 0).
  apply Qpower_le_compat_l; [lia | discriminate].
Qed.

Lemma timerDelay_le_108 (q : QueryState) : (timerDelay q <= 108)%Q.
Proof.
  unfold timerDelay. pose proof (backOff_le_8 q) as Hb.
  destruct (areActiveCallsFull q).
  - by apply plus100_le_108.
  - eapply Qle_trans; [exact Hb | discriminate].
Qed.

(** ** How one step acts on the chains *)

Lemma step_TimerFires_inv (w w' : World) (c : nat) :
  step w (TimerFires c) = Some w' →
  ∃ i d p n,
    chains w !! c = Some (mkChain i (Timer d) p n)
    ∧ w' = update c (mkChain i InFlight p (S n))
             (attemptCallbackRun_enter i (queryState w)) w.
Proof.
  unfold step. intros Hs.
  destruct (chains w !! c) as [[i [] p n] |]; try discriminate.
  injection Hs as <-. by eexists _, _, _, _.
Qed.

Lemma step_FuncFulfils_inv (w w' : World) (c : nat) (v : Z) :
  step w (FuncFulfils c v) = Some w' →
  ∃ i p n,
    chains w !! c = Some (mkChain i InFlight p n)
    ∧ w' = update c (mkChain i Returned (resolve v p) n)
             (attemptCallbackRun_resume i (queryState w)) w.
Proof.
  unfold step. intros Hs.
  destruct (chains w !! c) as [[i [] p n] |]; try discriminate.
  injection Hs as <-. by eexists _, _, _.
Qed.

Lemma step_FuncRejects_inv (w w' : World) (c : nat) (e : JsError) :
  step w (FuncRejects c e) = Some w' →
  ∃ i p n,
    chains w !! c = Some (mkChain i InFlight p n)
    ∧ w' = update c
             (mkChain i
                (stageOf (handleRunErrorsAndRetries retryCallback i (queryState w)))
                p n)
             (stateOf (handleRunErrorsAndRetries retryCallback i (queryState w))) w.
Proof.
  unfold step. intros Hs.
  destruct (chains w !! c) as [[i [] p n] |]; try discriminate.
  injection Hs as <-. by eexists _, _, _.
Qed.

Lemma step_Continue_inv (w w' : World) (c : nat) :
  step w (Continue c) = Some w' →
  ∃ i p n,
    chains w !! c = Some (mkChain i Returned p n)
    ∧ ((∃ o, afterAttempt i (queryState w) = inl o
             ∧ w' = update c (mkChain i (stageOf o) p n) (stateOf o) w)
       ∨ (∃ q, afterAttempt i (queryState w) = inr q
               ∧ w' = update c (mkChain i Finished p n) q w)).
Proof.
  unfold step. intros Hs.
  destruct (chains w !! c) as [[i [] p n] |]; try discriminate.
  exists i, p, n. split; [done |].
  destruct (afterAttempt i (queryState w)) as [o | q]; injection Hs as <-;
    [left | right]; by eexists.
Qed.

Lemma chains_queued (args : list Z) (host : Host) (w : World) :
  ∃ ch, chains (queued args host w) = chains w ++ [ch].
Proof.
  unfold queued.
  destruct (createPromiseExecutor (queryState w) args host); by eexists.
Qed.

Lemma chains_update_ne (c c' : nat) (ch : Chain) (q : QueryState) (w : World) :
  c ≠ c' → chains (update c ch q w) !! c' = chains w !! c'.
Proof. intros Hne. simpl. by apply list_lookup_insert_ne. Qed.

Lemma chains_update_eq (c : nat) (ch old : Chain) (q : QueryState) (w : World) :
  chains w !! c = Some old → chains (update c ch q w) !! c = Some ch.
Proof.
  intros Hold. simpl. apply list_lookup_insert_eq.
  by eapply lookup_lt_Some.
Qed.

Lemma step_settled (w w' : World) (ev : Event) (c : nat) (ch : Chain) :
  step w ev = Some w' →
  chains w !! c = Some ch → settled (stage ch) →
  chains w' !! c = Some ch.
Proof.
  intros Hs Hc Hst. destruct ev as [a h | c0 | c0 v | c0 e | c0].
  - injection Hs as <-. destruct (chains_queued a h w) as [ch' ->].
    by apply lookup_app_l_Some.
  - apply step_TimerFires_inv in Hs as (i & d & p & n & Hc0 & ->).
    destruct (decide (c0 = c)) as [-> | Hne].
    + rewrite Hc in Hc0. injection Hc0 as ->. destruct Hst.
    + by rewrite chains_update_ne.
  - apply step_FuncFulfils_inv in Hs as (i & p & n & Hc0 & ->).
    destruct (decide (c0 = c)) as [-> | Hne].
    + rewrite Hc in Hc0. injection Hc0 as ->. destruct Hst.
    + by rewrite chains_update_ne.
  - apply step_FuncRejects_inv in Hs as (i & p & n & Hc0 & ->).
    destruct (decide (c0 = c)) as [-> | Hne].
    + rewrite Hc in Hc0. injection Hc0 as ->. destruct Hst.
    + by rewrite chains_update_ne.
  - apply step_Continue_inv in Hs as (i & p & n & Hc0 & Hw).
    destruct (decide (c0 = c)) as [-> | Hne].
    + rewrite Hc in Hc0. injection Hc0 as ->. destruct Hst.
    + destruct Hw as [(o & _ & ->) | (q & _ & ->)]; by rewrite chains_update_ne.
Qed.

Lemma run_settled (evs : list Event) (w w' : World) (c : nat) (ch : Chain) :
  run w evs = Some w' →
  chains w !! c = Some ch → settled (stage ch) →
  chains w' !! c = Some ch.
Proof.
  revert w. induction evs as [| ev evs IH]; intros w Hr Hc Hst; simpl in Hr.
  - by injection Hr as <-.
  - destruct (step w ev) as [w1 |] eqn:Hs; [| discriminate].
    eapply IH; [exact Hr | | exact Hst].
    by eapply step_settled.
Qed.

(** ** Invariants of the event loop *)

Lemma run_invariant (P : World → Prop) :
  (∀ w ev w', P w → step w ev = Some w' → P w') →
  ∀ evs w w', P w → run w evs = Some w' → P w'.
Proof.
  intros Hstep. induction evs as [| ev evs IH]; intros w w' HP Hr; simpl in Hr.
  - by injection Hr as <-.
  - destruct (step w ev) as [w1 |] eqn:Hs; [| discriminate].
    eapply IH; [| exact Hr]. by eapply Hstep.
Qed.

Lemma reachable_invariant (P : World → Prop) :
  P initialWorld →
  (∀ w ev w', P w → step w ev = Some w' → P w') →
  ∀ w, reachable w → P w.
Proof.
  intros H0 Hstep w [evs Hr]. by eapply run_invariant.
Qed.

Lemma lookup_snoc_inv (l : list Chain) (x ch : Chain) (c : nat) :
  (l ++ [x]) !! c = Some ch →
  l !! c = Some ch ∨ (c = length l ∧ ch = x).
Proof.
  intros Hl. destruct (decide (c < length l)%nat) as [Hlt | Hge].
  - left. by rewrite lookup_app_l in Hl.
  - right. rewrite lookup_app_r in Hl by lia.
    destruct (c - length l)%nat as [| k] eqn:Hk; simpl in Hl; [| done].
    injection Hl as <-. split; [lia | done].
Qed.

Lemma lookup_update_inv (c c' : nat) (ch ch' : Chain) (q : QueryState) (w : World) :
  chains (update c ch q w) !! c' = Some ch' →
  (c' = c ∧ ch' = ch) ∨ (c' ≠ c ∧ chains w !! c' = Some ch').
Proof.
  intros Hl. destruct (decide (c' = c)) as [-> | Hne].
  - left. split; [done |]. simpl in Hl.
    rewrite list_lookup_insert_eq in Hl; [by injection Hl |].
    apply lookup_lt_Some in Hl. by rewrite length_insert in Hl.
  - right. split; [done |]. by rewrite chains_update_ne in Hl.
Qed.

(** No turn of the event loop calls [reject]: the only rejected promises are
    those of calls whose registration threw. *)
Lemma step_rejectedOnlyUnscheduled (w w' : World) (ev : Event) :
  rejectedOnlyUnscheduled w → step w ev = Some w' → rejectedOnlyUnscheduled w'.
Proof.
  intros Hinv Hs c ch e Hc Hp.
  destruct ev as [a h | c0 | c0 v | c0 e0 | c0].
  - injection Hs as <-. unfold queued in Hc.
    destruct (createPromiseExecutor (queryState w) a h) as [i o | i e1 q | i e1 q];
      simpl in Hc; apply lookup_snoc_inv in Hc as [Hc | [_ ->]];
      eauto; simpl in *; done.
  - apply step_TimerFires_inv in Hs as (i & d & p & n & Hc0 & ->).
    apply lookup_update_inv in Hc as [[-> ->] | [_ Hc]]; [| eauto].
    simpl in Hp. by destruct (Hinv _ _ _ Hc0 Hp).
  - apply step_FuncFulfils_inv in Hs as (i & p & n & Hc0 & ->).
    apply lookup_update_inv in Hc as [[-> ->] | [_ Hc]]; [| eauto].
    simpl in Hp. destruct p; simpl in Hp; try done.
    by destruct (Hinv _ _ reason Hc0 eq_refl).
  - apply step_FuncRejects_inv in Hs as (i & p & n & Hc0 & ->).
    apply lookup_update_inv in Hc as [[-> ->] | [_ Hc]]; [| eauto].
    simpl in Hp. by destruct (Hinv _ _ _ Hc0 Hp).
  - apply step_Continue_inv in Hs as (i & p & n & Hc0 & Hw).
    destruct Hw as [(o & _ & ->) | (q & _ & ->)];
      (apply lookup_update_inv in Hc as [[-> ->] | [_ Hc]]; [| eauto]);
      simpl in Hp; by destruct (Hinv _ _ _ Hc0 Hp).
Qed.

Lemma reachable_rejectedOnlyUnscheduled (w : World) :
  reachable w → rejectedOnlyUnscheduled w.
Proof.
  apply reachable_invariant.
  - intros c ch e Hc. done.
  - intros w0 ev w1. apply step_rejectedOnlyUnscheduled.
Qed.

(** ** A unit of work that always fails *)

(** C1.  The specification asks that, once a call's retry count exceeds
    MAX_RETRIES_PER_WINDOW, the record and the active-call entry are deleted
    and the caller's future is rejected, so that it settles.  On a fresh
    queue with one call whose unit of work fails at every attempt, the
    record and the entry are indeed deleted, but the error is thrown inside
    the timer callback: the caller's promise is still pending at that point
    and remains pending whatever happens afterwards.  More generally, in no
    reachable world is the promise of a call rejected for which a timer was
    ever armed. *)
Theorem exhaustion_leaves_promise_pending :
  (∃ w,
     run initialWorld (alwaysFailing 302) = Some w
     ∧ calls (queryState w) = ∅
     ∧ currentActiveCalls (queryState w) = ∅
     ∧ chains w = [mkChain 0 (Unhandled MaxRetriesExceeded) Pending 302]
     ∧ ∀ evs w',
         run w evs = Some w' →
         promise <$> chains w' !! 0%nat = Some Pending)
  ∧ (∀ w, reachable w → rejectedOnlyUnscheduled w).
Proof.
  split; [| exact reachable_rejectedOnlyUnscheduled].
  eexists. split; [by_evaluation |].
  conjuncts; try reflexivity.
  intros evs w' Hr.
  by rewrite (run_settled evs _ w' 0%nat
                (mkChain 0 (Unhandled MaxRetriesExceeded) Pending 302) Hr eq_refl I).
Qed.

(** C2.  The specification asks for exactly MAX_RETRIES_PER_WINDOW + 1 = 301
    attempts and a stored retry counter of at most 300.  The cap is compared
    with [>] against the counter as it was before the failure at hand, so
    after the 301st failed attempt the counter is 301 and another attempt is
    scheduled; exhaustion comes with the failure of the 302nd attempt. *)
Theorem always_failing_is_attempted_302_times :
  (∃ w,
     run initialWorld (alwaysFailing 301) = Some w
     ∧ chains w = [mkChain 0 (Timer 8) Pending 301]
     ∧ retries <$> calls (queryState w) !! 0 = Some (Some 301))
  ∧ (∃ w,
       run initialWorld (alwaysFailing 302) = Some w
       ∧ chains w = [mkChain 0 (Unhandled MaxRetriesExceeded) Pending 302]).
Proof.
  split; eexists; (split; [by_evaluation |]); conjuncts; reflexivity.
Qed.

(** ** The delay of a scheduling step *)

Lemma handler_delay (i : Z) (q : QueryState) (d : Q) :
  stageOf (handleRunErrorsAndRetries retryCallback i q) = Timer d →
  d = timerDelay (stateOf (handleRunErrorsAndRetries retryCallback i q)).
Proof.
  unfold handleRunErrorsAndRetries.
  destruct (calls q !! i) as [r |]; [| done].
  destruct (MAX_RETRIES_PER_DAY <? retriesOr0 r); [done |].
  rewrite retryCallback_delay. simpl. congruence.
Qed.

Lemma afterAttempt_inl (i : Z) (q : QueryState) (o : RetryOutcome) :
  afterAttempt i q = inl o → o = handleRunErrorsAndRetries retryCallback i q.
Proof.
  unfold afterAttempt. destruct (calls q !! i) as [r |].
  - by destruct (0 <? retriesOr0 r).
  - congruence.
Qed.

(** A timer that a step arms is armed with [timerDelay] of the state the
    step leaves behind; every other timer was there before. *)
Lemma step_new_timer (w w' : World) (ev : Event) (c : nat) (ch : Chain) (d : Q) :
  step w ev = Some w' →
  chains w' !! c = Some ch → stage ch = Timer d →
  chains w !! c = Some ch ∨ d = timerDelay (queryState w').
Proof.
  intros Hs Hc Hst. destruct ev as [a h | c0 | c0 v | c0 e0 | c0].
  - injection Hs as <-. unfold queued in *.
    destruct h as [now | e | now e]; simpl in *;
      apply lookup_snoc_inv in Hc as [Hc | [_ ->]]; auto; simpl in Hst;
      [| done | done].
    right. injection Hst as <-. reflexivity.
  - apply step_TimerFires_inv in Hs as (i & d0 & p & n & Hc0 & ->).
    apply lookup_update_inv in Hc as [[-> ->] | [_ Hc]]; [done | by left].
  - apply step_FuncFulfils_inv in Hs as (i & p & n & Hc0 & ->).
    apply lookup_update_inv in Hc as [[-> ->] | [_ Hc]]; [done | by left].
  - apply step_FuncRejects_inv in Hs as (i & p & n & Hc0 & ->).
    apply lookup_update_inv in Hc as [[-> ->] | [_ Hc]]; [| by left].
    right. simpl in *. by apply handler_delay.
  - apply step_Continue_inv in Hs as (i & p & n & Hc0 & Hw).
    destruct Hw as [(o & Ho & ->) | (q & _ & ->)];
      (apply lookup_update_inv in Hc as [[-> ->] | [_ Hc]]; [| by left]);
      [| done].
    right. simpl in *. apply afterAttempt_inl in Ho as ->. by apply handler_delay.
Qed.







(** ** Monotonicity and bound of the delay *)

Lemma step_timersBounded (w w' : World) (ev : Event) :
  timersBounded w → step w ev = Some w' → timersBounded w'.
Proof.
  intros Hinv Hs c ch d Hc Hst.
  destruct (step_new_timer _ _ _ _ _ _ Hs Hc Hst) as [Hold | ->].
  - by eapply Hinv.
  - apply timerDelay_le_108.
Qed.

Lemma timerDelay_mono (q1 q2 : QueryState) :
  areActiveCallsFull q1 = areActiveCallsFull q2 →
  numberOfFailures q1 ≤ numberOfFailures q2 →
  (timerDelay q1 <= timerDelay q2)%Q.
Proof.
  intros Hfull Hle. unfold timerDelay. rewrite Hfull.
  pose proof (backOff_mono q1 q2 Hle) as Hb.
  destruct (areActiveCallsFull q2); [| exact Hb].
  by apply plus100_mono.
Qed.

(** C8.  With the saturation status held fixed, the delay does not decrease
    when failureCount grows from a value that is not negative; it is the
    same for all failureCount of 3 or more; and it is at most 8 + 100 = 108
    time units, in every state and so for every timer of a reachable
    world. *)
Theorem delay_monotone_constant_bounded :
  (∀ q1 q2,
     areActiveCallsFull q1 = areActiveCallsFull q2 →
     0 ≤ numberOfFailures q1 →
     numberOfFailures q1 ≤ numberOfFailures q2 →
     (timerDelay q1 <= timerDelay q2)%Q)
  ∧ (∀ q1 q2,
       areActiveCallsFull q1 = areActiveCallsFull q2 →
       3 ≤ numberOfFailures q1 → 3 ≤ numberOfFailures q2 →
       timerDelay q1 = timerDelay q2)
  ∧ (∀ q, (timerDelay q <= 108)%Q)
  ∧ (∀ w, reachable w → timersBounded w).
Proof.
  split; [intros q1 q2 Hfull _ Hle; by apply timerDelay_mono |].
  split.
  { intros q1 q2 Hfull H1 H2. unfold timerDelay.
    by rewrite Hfull, !backOff_saturates. }
  split; [exact timerDelay_le_108 |].
  apply reachable_invariant.
  - intros c ch d Hc. done.
  - intros w ev w'. apply step_timersBounded.
Qed.

(** Two states of an unsaturated queue, with 1 and with 2 failures counted,
    and the world with five waiting calls. *)
Lemma delay_monotone_constant_bounded_witness :
  (timerDelay (mkState 0 1 ∅ ∅) <= timerDelay (mkState 0 2 ∅ ∅))%Q
  ∧ timerDelay (mkState 0 3 ∅ ∅) = timerDelay (mkState 0 7 ∅ ∅)
  ∧ timersBounded (worldAfter fiveWaiting).
Proof.
  destruct delay_monotone_constant_bounded as (Hmono & Hconst & _ & Hreach).
  split; [apply Hmono; [vm_compute; reflexivity | simpl; lia | simpl; lia] |].
  split; [apply Hconst; [vm_compute; reflexivity | simpl; lia | simpl; lia] |].
  apply Hreach. exists fiveWaiting. vm_compute. reflexivity.
Defined.

(** ** The call counter as index source *)

Lemma fulfil_decrements_keeps_records (w w' : World) (c : nat) (v : Z) :
  step w (FuncFulfils c v) = Some w' →
  numberOfCalls (queryState w') = numberOfCalls (queryState w) - 1
  ∧ calls (queryState w') = calls (queryState w).
Proof.
  intros Hs. apply step_FuncFulfils_inv in Hs as (i & p & n & _ & ->). done.
Qed.

Lemma afterAttempt_inl_missing (i : Z) (q : QueryState) (o : RetryOutcome) :
  afterAttempt i q = inl o → o = Raised TypeError q.
Proof.
  unfold afterAttempt, handleRunErrorsAndRetries.
  destruct (calls q !! i) as [r |].
  - by destruct (0 <? retriesOr0 r).
  - congruence.
Qed.

Lemma afterAttempt_inr (i : Z) (q q' : QueryState) :
  afterAttempt i q = inr q' →
  numberOfCalls q' = numberOfCalls q
  ∧ currentActiveCalls q' = currentActiveCalls q
  ∧ calls q' = calls q.
Proof.
  unfold afterAttempt. destruct (calls q !! i) as [r |]; [| done].
  destruct (0 <? retriesOr0 r); intros [= <-]; done.
Qed.

Lemma continue_keeps_records (w w' : World) (c : nat) :
  step w (Continue c) = Some w' →
  numberOfCalls (queryState w') = numberOfCalls (queryState w)
  ∧ calls (queryState w') = calls (queryState w).
Proof.
  intros Hs. apply step_Continue_inv in Hs as (i & p & n & _ & Hw).
  destruct Hw as [(o & Ho & ->) | (q & Hq & ->)]; simpl.
  - apply afterAttempt_inl_missing in Ho as ->. done.
  - apply afterAttempt_inr in Hq as (? & ? & ?). done.
Qed.

(** C4.  A successful completion of an attempt decrements numberOfCalls by 1
    and leaves all call records in place, both when the unit of work
    returns and when the timer callback finishes.  Hence a call made after
    another call has completed is given that call's index: the two
    invocations are different chains with the same index, and the record
    of the first is overwritten by the record of the second. *)
Theorem completion_lets_index_be_reused :
  (∀ w c v w',
     step w (FuncFulfils c v) = Some w' →
     numberOfCalls (queryState w') = numberOfCalls (queryState w) - 1
     ∧ calls (queryState w') = calls (queryState w))
  ∧ (∀ w c w',
       step w (Continue c) = Some w' →
       numberOfCalls (queryState w') = numberOfCalls (queryState w)
       ∧ calls (queryState w') = calls (queryState w))
  ∧ (∃ w1 w2,
       run initialWorld completed = Some w1
       ∧ step w1 (Invoke [2] (HostOk 20)) = Some w2
       ∧ index <$> chains w2 !! 0%nat = Some 0
       ∧ index <$> chains w2 !! 1%nat = Some 0
       ∧ calls (queryState w1) !! 0 = Some (mkCall [1] 10 (Some 0))
       ∧ calls (queryState w2) !! 0 = Some (mkCall [2] 20 (Some 0))).
Proof.
  split; [intros w c v w'; apply fulfil_decrements_keeps_records |].
  split; [intros w c w'; apply continue_keeps_records |].
  exists (worldAfter completed), (worldAfter reuse).
  conjuncts; by_evaluation.
Qed.

(** The first call of [completed], when its unit of work returns and when
    its timer callback finishes. *)
Lemma completion_lets_index_be_reused_witness :
  (numberOfCalls (queryState (worldAfter (take 3 completed)))
   = numberOfCalls (queryState (worldAfter (take 2 completed))) - 1
   ∧ calls (queryState (worldAfter (take 3 completed)))
     = calls (queryState (worldAfter (take 2 completed))))
  ∧ (numberOfCalls (queryState (worldAfter completed))
     = numberOfCalls (queryState (worldAfter (take 3 completed)))
     ∧ calls (queryState (worldAfter completed))
       = calls (queryState (worldAfter (take 3 completed)))).
Proof.
  destruct completion_lets_index_be_reused as (Hfulfil & Hcontinue & _).
  split.
  - apply (Hfulfil _ 0%nat 200). by_evaluation.
  - apply (Hcontinue _ 0%nat). by_evaluation.
Defined.

(** ** The failure counter *)

(** C5.  The specification keeps failureCount at 0 or above and lets only a
    call that failed before decrement it.  With three calls of which the
    first completes before the third is made, the second and the third
    share an index and a record.  The second fails once and succeeds, which
    brings the counter back to 0; the third then succeeds at its first
    attempt, finds the retry count of the second in the shared record, and
    decrements the counter to -1. *)
Theorem failure_count_goes_negative :
  ∃ w0 w,
    run initialWorld sharedIndexAttempts = Some w0
    ∧ numberOfFailures (queryState w0) = 0
    ∧ chains w0 !! 2%nat = Some (mkChain 1 Returned (Fulfilled 200) 1)
    ∧ step w0 (Continue 2) = Some w
    ∧ numberOfFailures (queryState w) = -1
    ∧ reachable w.
Proof.
  exists (worldAfter sharedIndexAttempts), (worldAfter sharedIndex).
  conjuncts; try by_evaluation.
  exists sharedIndex. by_evaluation.
Qed.

(** ** The facade and registration *)

Lemma queryQueue_fresh (h : gmap nat World) :
  h !! (Facade.queryQueue h).1 = None
  ∧ (Facade.queryQueue h).2 !! (Facade.queryQueue h).1
    = Some (mkWorld (mkState 0 0 ∅ ∅) [])
  ∧ ∀ l, l ≠ (Facade.queryQueue h).1 → (Facade.queryQueue h).2 !! l = h !! l.
Proof.
  unfold Facade.queryQueue. simpl. split; [| split].
  - apply not_elem_of_dom, is_fresh.
  - apply lookup_insert_eq.
  - intros l Hl. by apply lookup_insert_ne.
Qed.

Lemma queued_registers (w : World) (a : list Z) (now : Z) :
  chains (queued a (HostOk now) w)
  = chains w
    ++ [mkChain (numberOfCalls (queryState w))
          (Timer (timerDelay (queryState (queued a (HostOk now) w)))) Pending 0]
  ∧ calls (queryState (queued a (HostOk now) w))
    = <[numberOfCalls (queryState w) := mkCall a now (Some 0)]>
        (calls (queryState w))
  ∧ numberOfCalls (queryState (queued a (HostOk now) w))
    = numberOfCalls (queryState w) + 1
  ∧ numberOfFailures (queryState (queued a (HostOk now) w))
    = numberOfFailures (queryState w)
  ∧ currentActiveCalls (queryState (queued a (HostOk now) w))
    = currentActiveCalls (queryState w).
Proof. conjuncts; reflexivity. Qed.

(** C6.  A call of [queryQueue] allocates a state that no earlier queue
    uses, with both counters 0 and no records or active calls, and leaves
    the other queues alone.  Every invocation of the returned function
    works on that one state: it takes the current numberOfCalls as call
    index, stores a record with retries = 0 there, increments
    numberOfCalls by 1, arms the scheduler's timer for the index and
    returns a pending promise; the next invocation starts from the state
    the previous one has left. *)
Theorem facade_allocates_and_registers :
  (∀ h,
     h !! (Facade.queryQueue h).1 = None
     ∧ (Facade.queryQueue h).2 !! (Facade.queryQueue h).1
       = Some (mkWorld (mkState 0 0 ∅ ∅) [])
     ∧ ∀ l, l ≠ (Facade.queryQueue h).1 →
            (Facade.queryQueue h).2 !! l = h !! l)
  ∧ (∀ h l w a now,
       h !! l = Some w →
       ∃ w',
         Facade.call l a (HostOk now) h = Some (length (chains w), <[l := w']> h)
         ∧ (<[l := w']> h) !! l = Some w'
         ∧ chains w'
           = chains w
             ++ [mkChain (numberOfCalls (queryState w))
                   (Timer (timerDelay (queryState w'))) Pending 0]
         ∧ calls (queryState w')
           = <[numberOfCalls (queryState w) := mkCall a now (Some 0)]>
               (calls (queryState w))
         ∧ numberOfCalls (queryState w') = numberOfCalls (queryState w) + 1
         ∧ numberOfFailures (queryState w') = numberOfFailures (queryState w)
         ∧ currentActiveCalls (queryState w')
           = currentActiveCalls (queryState w)).
Proof.
  split; [exact queryQueue_fresh |].
  intros h l w a now Hl. exists (queued a (HostOk now) w).
  split; [unfold Facade.call; by rewrite Hl |].
  split; [apply lookup_insert_eq |].
  apply queued_registers.
Qed.

(** Two queues; the second one is called once. *)
Lemma facade_allocates_and_registers_witness :
  ∃ w',
    Facade.call 1 [7] (HostOk 10) twoQueues
    = Some (0%nat, <[1%nat := w']> twoQueues)
    ∧ chains w' = [mkChain 0 (Timer (timerDelay (queryState w'))) Pending 0]
    ∧ calls (queryState w') = <[0 := mkCall [7] 10 (Some 0)]> ∅
    ∧ numberOfCalls (queryState w') = 0 + 1.
Proof.
  destruct facade_allocates_and_registers as [_ Hcall].
  destruct (Hcall twoQueues 1%nat initialWorld [7] 10 ltac:(by_evaluation))
    as (w' & Hc & _ & Hch & Hcalls & Hn & _).
  exists w'. conjuncts; assumption.
Defined.





(** ** The failure handler *)

Lemma handler_below_cap (i : Z) (q : QueryState) (r : CallRecord) :
  calls q !! i = Some r →
  retriesOr0 r ≤ MAX_RETRIES_PER_DAY →
  handleRunErrorsAndRetries retryCallback i q
  = retryCallback i
      (setCalls (<[i := setRetries (retriesOr0 r + 1) r]> (calls q))
         (setNumberOfFailures (numberOfFailures q + 1) q)).
Proof.
  intros Hr Hle. unfold handleRunErrorsAndRetries. rewrite Hr.
  destruct (Z.ltb_spec MAX_RETRIES_PER_DAY (retriesOr0 r)); [lia | done].
Qed.

Lemma handler_above_cap (i : Z) (q : QueryState) (r : CallRecord) :
  calls q !! i = Some r →
  MAX_RETRIES_PER_DAY < retriesOr0 r →
  handleRunErrorsAndRetries retryCallback i q
  = Raised MaxRetriesExceeded
      (setCalls (delete i (calls q))
         (setActive (delete i (currentActiveCalls q)) q)).
Proof.
  intros Hr Hlt. unfold handleRunErrorsAndRetries. rewrite Hr.
  destruct (Z.ltb_spec MAX_RETRIES_PER_DAY (retriesOr0 r)); [done | lia].
Qed.

(** C7, as the code has it.  When an attempt fails of a call whose record is
    stored at its index, the retry cap is checked first, against the retry
    count the record holds from before this failure.  While that count is
    below the cap, failureCount and the call's retryCount are each
    incremented by 1, the active calls are left as they are, and the next
    attempt is scheduled.  At the failure that triggers the exhaustion
    path, where the count has exceeded the cap, neither counter is
    incremented: the record and the active-call entry are deleted and the
    timer callback ends with the max-retries-exceeded error. *)
Theorem failure_handler_checks_cap_first :
  ∀ w c e i p n r,
    chains w !! c = Some (mkChain i InFlight p n) →
    calls (queryState w) !! i = Some r →
    ∃ w',
      step w (FuncRejects c e) = Some w'
      ∧ (retriesOr0 r < MAX_RETRIES_PER_DAY →
         numberOfFailures (queryState w') = numberOfFailures (queryState w) + 1
         ∧ calls (queryState w')
           = <[i := setRetries (retriesOr0 r + 1) r]> (calls (queryState w))
         ∧ currentActiveCalls (queryState w') = currentActiveCalls (queryState w)
         ∧ chains w' !! c
           = Some (mkChain i (Timer (timerDelay (queryState w'))) p n))
      ∧ (MAX_RETRIES_PER_DAY < retriesOr0 r →
         numberOfFailures (queryState w') = numberOfFailures (queryState w)
         ∧ calls (queryState w') = delete i (calls (queryState w))
         ∧ currentActiveCalls (queryState w')
           = delete i (currentActiveCalls (queryState w))
         ∧ chains w' !! c = Some (mkChain i (Unhandled MaxRetriesExceeded) p n)).
Proof.
  intros w c e i p n r Hc Hr. eexists.
  split; [simpl; rewrite Hc; reflexivity |].
  split; intros Hcap.
  - rewrite (handler_below_cap _ _ _ Hr ltac:(lia)), retryCallback_delay.
    conjuncts; try reflexivity. by eapply chains_update_eq.
  - rewrite (handler_above_cap _ _ _ Hr Hcap).
    conjuncts; try reflexivity. by eapply chains_update_eq.
Qed.

(** The first attempt of a call fails, and the 302nd. *)
Lemma failure_handler_checks_cap_first_witness :
  (∃ w',
     step (worldAfter [Invoke [1] (HostOk 10); TimerFires 0])
       (FuncRejects 0 (Thrown 503)) = Some w'
     ∧ numberOfFailures (queryState w') = 0 + 1
     ∧ chains w' !! 0%nat
       = Some (mkChain 0 (Timer (timerDelay (queryState w'))) Pending 1))
  ∧ (∃ w',
       step (worldAfter (alwaysFailing 301 ++ [TimerFires 0]))
         (FuncRejects 0 (Thrown 503)) = Some w'
       ∧ numberOfFailures (queryState w') = 301
       ∧ chains w' !! 0%nat
         = Some (mkChain 0 (Unhandled MaxRetriesExceeded) Pending 302)).
Proof.
  split.
  - destruct (failure_handler_checks_cap_first
                (worldAfter [Invoke [1] (HostOk 10); TimerFires 0])
                0%nat (Thrown 503) 0 Pending 1%nat (mkCall [1] 10 (Some 0))
                ltac:(by_evaluation) ltac:(by_evaluation))
      as (w' & Hs & Hbelow & _).
    exists w'. split; [exact Hs |].
    destruct Hbelow as (Hnf & _ & _ & Hch); [by_evaluation |].
    split; [exact Hnf | exact Hch].
  - destruct (failure_handler_checks_cap_first
                (worldAfter (alwaysFailing 301 ++ [TimerFires 0]))
                0%nat (Thrown 503) 0 Pending 302%nat (mkCall [1] 1000 (Some 301))
                ltac:(by_evaluation) ltac:(by_evaluation))
      as (w' & Hs & _ & Habove).
    exists w'. split; [exact Hs |].
    destruct Habove as (Hnf & _ & _ & Hch); [by_evaluation |].
    split; [rewrite Hnf; by_evaluation | exact Hch].
Defined.

(** The increments do not happen at the failure that triggers exhaustion:
    when the 302nd attempt of an always failing call fails, failureCount
    stays at 301 and the record is deleted, not updated. *)
Lemma final_failure_increments_nothing :
  ∃ w w',
    run initialWorld (alwaysFailing 301 ++ [TimerFires 0]) = Some w
    ∧ step w (FuncRejects 0 (Thrown 503)) = Some w'
    ∧ stage <$> chains w' !! 0%nat = Some (Unhandled MaxRetriesExceeded)
    ∧ numberOfFailures (queryState w) = 301
    ∧ numberOfFailures (queryState w') = 301
    ∧ numberOfFailures (queryState w') ≠ numberOfFailures (queryState w) + 1
    ∧ calls (queryState w') !! 0 = None.
Proof.
  exists (worldAfter (alwaysFailing 301 ++ [TimerFires 0])),
         (worldAfter (alwaysFailing 302)).
  conjuncts; try by_evaluation.
  vm_compute. discriminate.
Qed.

(** ** The active calls during a backoff wait *)

(** The failure handler touches the active calls only on its
    max-retries path. *)
Lemma handler_active (i : Z) (q : QueryState) :
  (stageOf (handleRunErrorsAndRetries retryCallback i q)
     = Unhandled MaxRetriesExceeded
   ∧ currentActiveCalls (stateOf (handleRunErrorsAndRetries retryCallback i q))
     = delete i (currentActiveCalls q))
  ∨ currentActiveCalls (stateOf (handleRunErrorsAndRetries retryCallback i q))
    = currentActiveCalls q.
Proof.
  unfold handleRunErrorsAndRetries.
  destruct (calls q !! i) as [r |]; [| by right].
  destruct (MAX_RETRIES_PER_DAY <? retriesOr0 r); [by left | by right].
Qed.








(** ** Further invariants: records and promises *)

Lemma register_recordsBounded (q : QueryState) (a : list Z) (now : Z) :
  recordsBounded q →
  recordsBounded
    (setNumberOfCalls (numberOfCalls q + 1)
       (setCalls (<[numberOfCalls q := mkCall a now (Some 0)]> (calls q)) q)).
Proof.
  intros Hq i r. simpl. rewrite lookup_insert.
  case_decide; [| by apply Hq].
  intros [= <-]. exists 0. unfold MAX_RETRIES_PER_DAY. simpl. split; [done | lia].
Qed.

Lemma retriesOr0_bounds (r : CallRecord) (n : Z) :
  retries r = Some n → 0 ≤ n → retriesOr0 r = n.
Proof.
  intros Hr Hn. unfold retriesOr0. rewrite Hr.
  destruct (Z.eqb_spec n 0); lia.
Qed.

Lemma handler_recordsBounded (i : Z) (q : QueryState) :
  recordsBounded q →
  recordsBounded (stateOf (handleRunErrorsAndRetries retryCallback i q)).
Proof.
  intros Hq. unfold handleRunErrorsAndRetries.
  destruct (calls q !! i) as [r |] eqn:Hr; [| exact Hq].
  destruct (Z.ltb_spec MAX_RETRIES_PER_DAY (retriesOr0 r)) as [Hgt | Hle]; simpl.
  - intros j r'. simpl. rewrite lookup_delete. case_decide; [done | by apply Hq].
  - intros j r'. simpl.
    rewrite lookup_insert. case_decide; [| by apply Hq].
    intros [= <-]. simpl. eexists. split; [reflexivity |].
    destruct (Hq _ _ Hr) as (n & Hn & Hn0 & _).
    rewrite (retriesOr0_bounds _ _ Hn Hn0) in *. lia.
Qed.

Lemma step_recordsBounded (w w' : World) (ev : Event) :
  recordsBounded (queryState w) → step w ev = Some w' →
  recordsBounded (queryState w').
Proof.
  intros Hq Hs. destruct ev as [a h | c0 | c0 v | c0 e0 | c0].
  - injection Hs as <-. destruct h as [now | e | now e]; simpl;
      [by apply register_recordsBounded | done | by apply register_recordsBounded].
  - apply step_TimerFires_inv in Hs as (i & d & p & n & _ & ->). exact Hq.
  - apply step_FuncFulfils_inv in Hs as (i & p & n & _ & ->). exact Hq.
  - apply step_FuncRejects_inv in Hs as (i & p & n & _ & ->).
    by apply handler_recordsBounded.
  - apply step_Continue_inv in Hs as (i & p & n & _ & Hw).
    destruct Hw as [(o & Ho & ->) | (q & Hq' & ->)]; simpl.
    + apply afterAttempt_inl_missing in Ho as ->. exact Hq.
    + apply afterAttempt_inr in Hq' as (_ & _ & Hcalls).
      intros j r. rewrite Hcalls. apply Hq.
Qed.

(** X1.  In every reachable world each call record carries a retry count,
    and that count lies between 0 and MAX_RETRIES_PER_DAY + 1 = 301. *)
Theorem retries_between_0_and_301 :
  ∀ w i r,
    reachable w →
    calls (queryState w) !! i = Some r →
    ∃ n, retries r = Some n ∧ 0 ≤ n ≤ 301.
Proof.
  intros w i r Hw. revert i r.
  change (recordsBounded (queryState w)). revert w Hw.
  apply reachable_invariant.
  - intros i r Hr. done.
  - intros w ev w'. apply step_recordsBounded.
Qed.

(** The record of an always failing call after 301 attempts. *)
Lemma retries_between_0_and_301_witness :
  ∃ n, retries (mkCall [1] 1000 (Some 301)) = Some n ∧ 0 ≤ n ≤ 301.
Proof.
  apply (retries_between_0_and_301 (worldAfter (alwaysFailing 301)) 0).
  - exists (alwaysFailing 301). by_evaluation.
  - by_evaluation.
Defined.

Lemma handler_stage (i : Z) (q : QueryState) :
  (∃ d, stageOf (handleRunErrorsAndRetries retryCallback i q) = Timer d)
  ∨ stageOf (handleRunErrorsAndRetries retryCallback i q) = Unhandled TypeError
  ∨ stageOf (handleRunErrorsAndRetries retryCallback i q)
    = Unhandled MaxRetriesExceeded.
Proof.
  unfold handleRunErrorsAndRetries.
  destruct (calls q !! i) as [r |]; [| by right; left].
  destruct (MAX_RETRIES_PER_DAY <? retriesOr0 r); [by right; right |].
  left. by eexists.
Qed.

Lemma step_allWellStaged (w w' : World) (ev : Event) :
  allWellStaged w → step w ev = Some w' → allWellStaged w'.
Proof.
  intros Hinv Hs c ch Hc.
  destruct ev as [a h | c0 | c0 v | c0 e0 | c0].
  - injection Hs as <-. unfold queued in Hc.
    destruct h as [now | e | now e]; simpl in Hc;
      apply lookup_snoc_inv in Hc as [Hc | [_ ->]]; eauto;
      unfold wellStaged; simpl; eauto.
  - apply step_TimerFires_inv in Hs as (i & d & p & n & Hc0 & ->).
    apply lookup_update_inv in Hc as [[-> ->] | [_ Hc]]; [| eauto].
    specialize (Hinv _ _ Hc0). unfold wellStaged in *. simpl in *.
    split; [done | lia].
  - apply step_FuncFulfils_inv in Hs as (i & p & n & Hc0 & ->).
    apply lookup_update_inv in Hc as [[-> ->] | [_ Hc]]; [| eauto].
    specialize (Hinv _ _ Hc0). unfold wellStaged in *. simpl in *.
    destruct Hinv as [-> Hn]. simpl. eauto.
  - apply step_FuncRejects_inv in Hs as (i & p & n & Hc0 & ->).
    apply lookup_update_inv in Hc as [[-> ->] | [_ Hc]]; [| eauto].
    specialize (Hinv _ _ Hc0). unfold wellStaged in *. simpl in *.
    destruct Hinv as [-> Hn].
    destruct (handler_stage i (queryState w)) as [[d ->] | [-> | ->]]; eauto.
  - apply step_Continue_inv in Hs as (i & p & n & Hc0 & Hw).
    pose proof (Hinv _ _ Hc0) as Hold. unfold wellStaged in Hold. simpl in Hold.
    destruct Hw as [(o & Ho & ->) | (q & _ & ->)];
      (apply lookup_update_inv in Hc as [[-> ->] | [_ Hc]]; [| eauto]);
      unfold wellStaged; simpl.
    + apply afterAttempt_inl_missing in Ho as ->. simpl.
      destruct Hold as [Hv Hn]. eauto.
    + exact Hold.
Qed.

Lemma reachable_allWellStaged (w : World) : reachable w → allWellStaged w.
Proof.
  revert w. apply reachable_invariant.
  - intros c ch Hc. done.
  - intros w ev w'. apply step_allWellStaged.
Qed.

(** X2.  In every reachable world the promise of a call matches the place
    its closure is in: pending while a timer or an attempt is outstanding,
    fulfilled once an attempt has returned, rejected only when registration
    threw.  A timer callback that ends in an error ends in the
    max-retries error with the promise still pending, or in a TypeError;
    the error of the unit of work itself never escapes. *)
Theorem promise_follows_stage :
  ∀ w c ch,
    reachable w → chains w !! c = Some ch →
    match stage ch with
    | NoTimer => (∃ e, promise ch = Rejected e) ∧ attempts ch = 0%nat
    | Timer _ => promise ch = Pending
    | InFlight => promise ch = Pending ∧ (1 ≤ attempts ch)%nat
    | Returned | Finished =>
        (∃ v, promise ch = Fulfilled v) ∧ (1 ≤ attempts ch)%nat
    | Unhandled MaxRetriesExceeded =>
        promise ch = Pending ∧ (1 ≤ attempts ch)%nat
    | Unhandled TypeError =>
        (promise ch = Pending ∨ ∃ v, promise ch = Fulfilled v)
        ∧ (1 ≤ attempts ch)%nat
    | Unhandled (Thrown _) => False
    end.
Proof. intros w c ch Hw. by apply reachable_allWellStaged. Qed.

(** The second of five failed calls, waiting for its retry. *)
Lemma promise_follows_stage_witness :
  promise (mkChain 1 (Timer 104) Pending 1) = Pending.
Proof.
  apply (promise_follows_stage (worldAfter fiveWaiting) 1%nat
           (mkChain 1 (Timer 104) Pending 1)).
  - exists fiveWaiting. by_evaluation.
  - by_evaluation.
Defined.

Lemma resolve_settled (v : Z) (p : PromiseState) :
  p ≠ Pending → resolve v p = p.
Proof. by destruct p. Qed.

Lemma step_chain_persists (w w' : World) (ev : Event) (c : nat) (ch : Chain) :
  step w ev = Some w' → chains w !! c = Some ch →
  ∃ ch',
    chains w' !! c = Some ch'
    ∧ index ch' = index ch
    ∧ (attempts ch ≤ attempts ch')%nat
    ∧ (promise ch ≠ Pending → promise ch' = promise ch).
Proof.
  intros Hs Hc.
  assert (∀ c0 ch0 q, c0 ≠ c →
            ∃ ch', chains (update c0 ch0 q w) !! c = Some ch'
                   ∧ index ch' = index ch
                   ∧ (attempts ch ≤ attempts ch')%nat
                   ∧ (promise ch ≠ Pending → promise ch' = promise ch)) as Hother.
  { intros c0 ch0 q Hne. exists ch. by rewrite chains_update_ne. }
  destruct ev as [a h | c0 | c0 v | c0 e0 | c0].
  - injection Hs as <-. destruct (chains_queued a h w) as [x ->].
    exists ch. split; [by apply lookup_app_l_Some | done].
  - apply step_TimerFires_inv in Hs as (i & d & p & n & Hc0 & ->).
    destruct (decide (c0 = c)) as [-> | Hne]; [| by apply Hother].
    rewrite Hc in Hc0. injection Hc0 as ->.
    eexists. split; [by eapply chains_update_eq |]. simpl.
    split; [done | split; [lia | done]].
  - apply step_FuncFulfils_inv in Hs as (i & p & n & Hc0 & ->).
    destruct (decide (c0 = c)) as [-> | Hne]; [| by apply Hother].
    rewrite Hc in Hc0. injection Hc0 as ->.
    eexists. split; [by eapply chains_update_eq |]. simpl.
    split; [done | split; [lia | apply resolve_settled]].
  - apply step_FuncRejects_inv in Hs as (i & p & n & Hc0 & ->).
    destruct (decide (c0 = c)) as [-> | Hne]; [| by apply Hother].
    rewrite Hc in Hc0. injection Hc0 as ->.
    eexists. split; [by eapply chains_update_eq |]. simpl.
    split; [done | split; [lia | done]].
  - apply step_Continue_inv in Hs as (i & p & n & Hc0 & Hw).
    destruct Hw as [(o & _ & ->) | (q & _ & ->)];
      (destruct (decide (c0 = c)) as [-> | Hne]; [| by apply Hother]);
      rewrite Hc in Hc0; injection Hc0 as ->;
      (eexists; split; [by eapply chains_update_eq |]); simpl;
      (split; [done | split; [lia | done]]).
Qed.

Lemma run_chain_persists (evs : list Event) :
  ∀ w w' c ch,
    run w evs = Some w' → chains w !! c = Some ch →
    ∃ ch',
      chains w' !! c = Some ch'
      ∧ index ch' = index ch
      ∧ (attempts ch ≤ attempts ch')%nat
      ∧ (promise ch ≠ Pending → promise ch' = promise ch).
Proof.
  induction evs as [| ev evs IH]; intros w w' c ch Hr Hc; simpl in Hr.
  - injection Hr as <-. by exists ch.
  - destruct (step w ev) as [w1 |] eqn:Hs; [| discriminate].
    destruct (step_chain_persists _ _ _ _ _ Hs Hc) as (ch1 & Hc1 & Hi1 & Ha1 & Hp1).
    destruct (IH _ _ _ _ Hr Hc1) as (ch' & Hc' & Hi' & Ha' & Hp').
    exists ch'. split; [done |]. split; [congruence |]. split; [lia |].
    intros Hp. rewrite <- (Hp1 Hp). apply Hp'. by rewrite (Hp1 Hp).
Qed.

(** X3.  Whatever the queue does next, a call stays in it with the index it
    was given, the count of its attempts never goes down, and its promise,
    once it is fulfilled or rejected, keeps its state and value. *)
Theorem settled_promise_never_changes :
  ∀ evs w w' c ch,
    run w evs = Some w' → chains w !! c = Some ch →
    ∃ ch',
      chains w' !! c = Some ch'
      ∧ index ch' = index ch
      ∧ (attempts ch ≤ attempts ch')%nat
      ∧ (promise ch ≠ Pending → promise ch' = promise ch).
Proof. exact run_chain_persists. Qed.

(** The first call of [sharedIndex], fulfilled after five events, is looked
    at again at the end of the scenario. *)
Lemma settled_promise_never_changes_witness :
  ∃ ch',
    chains (worldAfter sharedIndex) !! 0%nat = Some ch'
    ∧ index ch' = 0
    ∧ (1 ≤ attempts ch')%nat
    ∧ (Fulfilled 200 ≠ Pending → promise ch' = Fulfilled 200).
Proof.
  apply (settled_promise_never_changes (drop 6 sharedIndex)
           (worldAfter (take 6 sharedIndex)) (worldAfter sharedIndex) 0%nat
           (mkChain 0 Finished (Fulfilled 200) 1));
    by_evaluation.
Defined.

(** X4.  In every reachable world a call that waits for its timer can be
    attempted, however many calls are active and whatever the counters
    are; if the unit of work then returns [v], the promise of the call is
    fulfilled with [v] and stays so. *)
Theorem successful_attempt_fulfils :
  ∀ w c ch d v,
    reachable w → chains w !! c = Some ch → stage ch = Timer d →
    ∃ w',
      run w [TimerFires c; FuncFulfils c v; Continue c] = Some w'
      ∧ ∀ evs w'',
          run w' evs = Some w'' →
          promise <$> chains w'' !! c = Some (Fulfilled v).
Proof.
  intros w c [i st p n] d v Hw Hc Hst. simpl in Hst. subst st.
  pose proof (reachable_allWellStaged _ Hw _ _ Hc) as Hp.
  unfold wellStaged in Hp. simpl in Hp. subst p.
  assert (∃ w3 ch3, run w [TimerFires c; FuncFulfils c v; Continue c] = Some w3
                    ∧ chains w3 !! c = Some ch3
                    ∧ promise ch3 = Fulfilled v) as (w3 & ch3 & Hr & Hc3 & Hp3).
  { simpl. rewrite Hc. simpl.
    erewrite list_lookup_insert_eq by (by eapply lookup_lt_Some). simpl.
    erewrite list_lookup_insert_eq
      by (rewrite length_insert; by eapply lookup_lt_Some).
    destruct (afterAttempt i _) as [o | q]; eexists _, _;
      (split; [reflexivity |]); simpl;
      (split; [apply list_lookup_insert_eq;
               rewrite !length_insert; by eapply lookup_lt_Some | done]). }
  exists w3. split; [exact Hr |].
  intros evs w'' Hr'.
  destruct (run_chain_persists _ _ _ _ _ Hr' Hc3)
    as (ch' & -> & _ & _ & Hp').
  simpl. rewrite Hp', Hp3; [done | by rewrite Hp3].
Qed.

(** The fifth of five failed calls, in a saturated queue with five failures
    counted. *)
Lemma successful_attempt_fulfils_witness :
  ∃ w',
    run (worldAfter fiveWaiting) [TimerFires 4; FuncFulfils 4 7; Continue 4]
    = Some w'
    ∧ ∀ evs w'',
        run w' evs = Some w'' →
        promise <$> chains w'' !! 4%nat = Some (Fulfilled 7).
Proof.
  apply (successful_attempt_fulfils (worldAfter fiveWaiting) 4%nat
           (mkChain 4 (Timer 108) Pending 1) 108%Q 7).
  - exists fiveWaiting. by_evaluation.
  - by_evaluation.
  - reflexivity.
Defined.

(** ** Further invariants: the call counter *)

Lemma total_app (f : Chain → Z) (l1 l2 : list Chain) :
  total f (l1 ++ l2) = total f l1 + total f l2.
Proof. induction l1 as [| x l1 IH]; simpl; lia. Qed.

Lemma total_insert (f : Chain → Z) (l : list Chain) (c : nat) (old new : Chain) :
  l !! c = Some old →
  total f (<[c := new]> l) = total f l - f old + f new.
Proof.
  revert c. induction l as [| x l IH]; intros c Hc; [done |].
  destruct c as [| c]; simpl in *.
  - injection Hc as ->. lia.
  - rewrite (IH _ Hc). lia.
Qed.

Lemma handler_numberOfCalls (i : Z) (q : QueryState) :
  numberOfCalls (stateOf (handleRunErrorsAndRetries retryCallback i q))
  = numberOfCalls q.
Proof.
  unfold handleRunErrorsAndRetries.
  destruct (calls q !! i) as [r |]; [| done].
  by destruct (MAX_RETRIES_PER_DAY <? retriesOr0 r).
Qed.

Lemma step_call_counter (w w' : World) (ev : Event) :
  allWellStaged w → step w ev = Some w' →
  numberOfCalls (queryState w') - pendingCalls w'
  = numberOfCalls (queryState w) - pendingCalls w + spreadFaults [ev].
Proof.
  intros Hinv Hs. unfold pendingCalls.
  destruct ev as [a h | c0 | c0 v | c0 e0 | c0].
  - injection Hs as <-.
    destruct h as [now | e | now e]; simpl; rewrite total_app; simpl;
      unfold pendingUnit; simpl; lia.
  - apply step_TimerFires_inv in Hs as (i & d & p & n & Hc0 & ->). simpl.
    rewrite (total_insert _ _ _ _ _ Hc0). unfold pendingUnit. simpl. lia.
  - apply step_FuncFulfils_inv in Hs as (i & p & n & Hc0 & ->). simpl.
    rewrite (total_insert _ _ _ _ _ Hc0).
    specialize (Hinv _ _ Hc0). unfold wellStaged in Hinv. simpl in Hinv.
    destruct Hinv as [-> _]. unfold pendingUnit. simpl. lia.
  - apply step_FuncRejects_inv in Hs as (i & p & n & Hc0 & ->). simpl.
    rewrite (total_insert _ _ _ _ _ Hc0), handler_numberOfCalls.
    unfold pendingUnit. simpl. lia.
  - apply step_Continue_inv in Hs as (i & p & n & Hc0 & Hw).
    destruct Hw as [(o & Ho & ->) | (q & Hq & ->)]; simpl;
      rewrite (total_insert _ _ _ _ _ Hc0); unfold pendingUnit; simpl.
    + apply afterAttempt_inl_missing in Ho as ->. simpl. lia.
    + apply afterAttempt_inr in Hq as (-> & _ & _). lia.
Qed.

Lemma run_call_counter (evs : list Event) (w w' : World) :
  allWellStaged w → run w evs = Some w' →
  numberOfCalls (queryState w') - pendingCalls w'
  = numberOfCalls (queryState w) - pendingCalls w + spreadFaults evs.
Proof.
  revert w. induction evs as [| ev evs IH]; intros w Hinv Hr; simpl in Hr.
  - injection Hr as <-. simpl. lia.
  - destruct (step w ev) as [w1 |] eqn:Hs; [| discriminate].
    rewrite (IH w1 (step_allWellStaged _ _ _ Hinv Hs) Hr).
    rewrite (step_call_counter _ _ _ Hinv Hs).
    destruct ev as [a [| |] | | | |]; simpl; lia.
Qed.

Lemma total_pendingUnit_nonneg (l : list Chain) : 0 ≤ total pendingUnit l.
Proof.
  induction l as [| x l IH]; simpl; [lia |].
  unfold pendingUnit at 1. destruct (promise x); lia.
Qed.

Lemma spreadFaults_nonneg (evs : list Event) : 0 ≤ spreadFaults evs.
Proof.
  induction evs as [| [a [| |] | | | |] evs IH]; simpl; lia.
Qed.

(** X5.  After any sequence of events on a fresh queue, numberOfCalls is the
    number of calls whose promise is still pending, plus the number of
    invocations whose registration threw after the counter had been
    incremented.  So the counter is never negative, and it counts the
    unresolved calls, among them the calls whose retries are exhausted. *)
Theorem call_counter_counts_pending :
  ∀ evs w,
    run initialWorld evs = Some w →
    numberOfCalls (queryState w) = pendingCalls w + spreadFaults evs
    ∧ 0 ≤ numberOfCalls (queryState w).
Proof.
  intros evs w Hr.
  assert (allWellStaged initialWorld) as H0 by (intros c ch Hc; done).
  pose proof (run_call_counter _ _ _ H0 Hr) as Heq. simpl in Heq.
  unfold pendingCalls at 2 in Heq. simpl in Heq.
  pose proof (total_pendingUnit_nonneg (chains w)).
  pose proof (spreadFaults_nonneg evs).
  unfold pendingCalls in *. lia.
Qed.

(** Three calls of which two have been resolved and one is in flight. *)
Lemma call_counter_counts_pending_witness :
  numberOfCalls (queryState (worldAfter (take 12 sharedIndex)))
  = pendingCalls (worldAfter (take 12 sharedIndex))
    + spreadFaults (take 12 sharedIndex)
  ∧ 0 ≤ numberOfCalls (queryState (worldAfter (take 12 sharedIndex))).
Proof.
  apply (call_counter_counts_pending (take 12 sharedIndex)). by_evaluation.
Defined.

(** ** Further invariants: the active calls *)

Lemma step_activeOwned (w w' : World) (ev : Event) :
  allWellStaged w → activeOwned w → step w ev = Some w' → activeOwned w'.
Proof.
  intros Hst Hinv Hs i b Hi.
  (* a chain that keeps its index, attempts and promise keeps what it owns *)
  assert (∀ c0 old new q,
            chains w !! c0 = Some old →
            index new = index old → (attempts old ≤ attempts new)%nat →
            promise new = promise old ∨ index old ≠ i →
            currentActiveCalls (queryState w) !! i = Some b →
            b = true
            ∧ ∃ c ch, chains (update c0 new q w) !! c = Some ch ∧ index ch = i
                      ∧ promise ch = Pending ∧ (1 ≤ attempts ch)%nat) as Hkeep.
  { intros c0 old new q Hc0 Hidx Hatt Hsame Hact.
    destruct (Hinv _ _ Hact) as (-> & c & ch & Hc & Hi0 & Hp & Hn).
    split; [done |].
    destruct (decide (c = c0)) as [-> | Hne].
    - rewrite Hc0 in Hc. injection Hc as ->.
      exists c0, new. split; [by eapply chains_update_eq |].
      split; [congruence |]. split; [| lia].
      destruct Hsame as [-> | Hdiff]; [done | by destruct Hdiff].
    - exists c, ch. by rewrite chains_update_ne. }
  destruct ev as [a h | c0 | c0 v | c0 e0 | c0].
  - injection Hs as <-.
    assert (currentActiveCalls (queryState (queued a h w))
            = currentActiveCalls (queryState w)) as Hact
      by (by destruct h).
    rewrite Hact in Hi.
    destruct (Hinv _ _ Hi) as (-> & c & ch & Hc & Hrest).
    split; [done |]. exists c, ch.
    destruct (chains_queued a h w) as [x ->].
    split; [by apply lookup_app_l_Some | done].
  - apply step_TimerFires_inv in Hs as (i0 & d & p & n & Hc0 & ->).
    pose proof (Hst _ _ Hc0) as Hp. unfold wellStaged in Hp. simpl in Hp. subst p.
    simpl in Hi. rewrite lookup_insert in Hi. case_decide as Hii.
    + injection Hi as <-. subst i0. split; [done |].
      eexists c0, _. split; [by eapply chains_update_eq |]. simpl.
      split; [done | split; [done | lia]].
    + apply (Hkeep c0 (mkChain i0 (Timer d) Pending n)); simpl; auto.
  - apply step_FuncFulfils_inv in Hs as (i0 & p & n & Hc0 & ->).
    simpl in Hi. rewrite lookup_delete in Hi. case_decide as Hii; [done |].
    apply (Hkeep c0 (mkChain i0 InFlight p n)); simpl; auto.
  - apply step_FuncRejects_inv in Hs as (i0 & p & n & Hc0 & ->).
    simpl in Hi.
    destruct (handler_active i0 (queryState w)) as [[_ Hdel] | Hsame].
    + rewrite Hdel, lookup_delete in Hi. case_decide as Hii; [done |].
      apply (Hkeep c0 (mkChain i0 InFlight p n)); simpl; auto.
    + rewrite Hsame in Hi.
      apply (Hkeep c0 (mkChain i0 InFlight p n)); simpl; auto.
  - apply step_Continue_inv in Hs as (i0 & p & n & Hc0 & Hw).
    destruct Hw as [(o & Ho & ->) | (q & Hq & ->)]; simpl in Hi.
    + apply afterAttempt_inl_missing in Ho as ->. simpl in Hi.
      apply (Hkeep c0 (mkChain i0 Returned p n)); simpl; auto.
    + apply afterAttempt_inr in Hq as (_ & Hact & _). rewrite Hact in Hi.
      apply (Hkeep c0 (mkChain i0 Returned p n)); simpl; auto.
Qed.

Lemma reachable_activeOwned (w : World) : reachable w → activeOwned w.
Proof.
  intros Hw.
  enough (allWellStaged w ∧ activeOwned w) as [_ H] by exact H.
  revert w Hw. apply reachable_invariant.
  - split; [intros c ch Hc; done | intros i b Hi; done].
  - intros w ev w' [Hst Hact] Hs.
    split; [by eapply step_allWellStaged | by eapply step_activeOwned].
Qed.

Lemma total_pendingUnit_zero (l : list Chain) (c : nat) (ch : Chain) :
  total pendingUnit l = 0 → l !! c = Some ch → promise ch ≠ Pending.
Proof.
  revert c. induction l as [| x l IH]; intros c Hz Hc; [done |].
  simpl in Hz. pose proof (total_pendingUnit_nonneg l) as Hnn.
  assert (0 ≤ pendingUnit x) as Hx
    by (unfold pendingUnit; destruct (promise x); lia).
  destruct c as [| c]; simpl in Hc.
  - injection Hc as ->. intros Hp.
    assert (pendingUnit ch = 1) by (unfold pendingUnit; by rewrite Hp). lia.
  - apply (IH c); [lia | done].
Qed.

(** X6.  In every reachable world each entry of currentActiveCalls is [true]
    and is the index of a call that has been attempted and whose promise
    is still pending.  Hence, once every promise is settled, no call is
    active and the queue is not saturated. *)
Theorem active_entries_have_pending_owner :
  ∀ w,
    reachable w →
    (∀ i b,
       currentActiveCalls (queryState w) !! i = Some b →
       b = true
       ∧ ∃ c ch,
           chains w !! c = Some ch ∧ index ch = i
           ∧ promise ch = Pending ∧ (1 ≤ attempts ch)%nat)
    ∧ (pendingCalls w = 0 →
       currentActiveCalls (queryState w) = ∅
       ∧ areActiveCallsFull (queryState w) = false).
Proof.
  intros w Hw. pose proof (reachable_activeOwned w Hw) as Hown.
  split; [exact Hown |].
  intros Hz.
  assert (currentActiveCalls (queryState w) = ∅) as Hempty.
  { apply map_empty. intros i.
    destruct (currentActiveCalls (queryState w) !! i) as [b |] eqn:Hi; [| done].
    destruct (Hown _ _ Hi) as (_ & c & ch & Hc & _ & Hp & _).
    by destruct (total_pendingUnit_zero _ _ _ Hz Hc). }
  split; [exact Hempty |].
  unfold areActiveCallsFull. rewrite Hempty. reflexivity.
Qed.

(** The world in which all three calls of [sharedIndex] are resolved. *)
Lemma active_entries_have_pending_owner_witness :
  currentActiveCalls (queryState (worldAfter sharedIndex)) = ∅
  ∧ areActiveCallsFull (queryState (worldAfter sharedIndex)) = false.
Proof.
  destruct (active_entries_have_pending_owner (worldAfter sharedIndex))
    as [_ Hnone].
  - exists sharedIndex. by_evaluation.
  - apply Hnone. by_evaluation.
Defined.

(** ** Edge behaviour of the timer callback *)

(** X7.  Whenever the timer callback resumes after a successful attempt and
    finds a retry count above 0 in the record at its index, the call
    finishes and the failure counter is decremented by 1.  If instead the
    queued function is invoked between the return of that attempt and the
    resumption, while numberOfCalls equals the index of the call, the new
    record (retries = 0) replaces the old one and the counter is not
    decremented. *)
Theorem invocation_before_resumption_blocks_decay :
  ∀ w c i p n r,
    chains w !! c = Some (mkChain i Returned p n) →
    calls (queryState w) !! i = Some r → 0 < retriesOr0 r →
    (∃ w',
       step w (Continue c) = Some w'
       ∧ numberOfFailures (queryState w') = numberOfFailures (queryState w) - 1
       ∧ chains w' !! c = Some (mkChain i Finished p n))
    ∧ (∀ a now,
         numberOfCalls (queryState w) = i →
         ∃ w1 w2,
           step w (Invoke a (HostOk now)) = Some w1
           ∧ step w1 (Continue c) = Some w2
           ∧ numberOfFailures (queryState w2) = numberOfFailures (queryState w)
           ∧ chains w2 !! c = Some (mkChain i Finished p n)).
Proof.
  intros w c i p n r Hc Hr Hpos. split.
  - exists (update c (mkChain i Finished p n)
              (setNumberOfFailures (numberOfFailures (queryState w) - 1)
                 (queryState w)) w).
    split; [| split; [reflexivity | by eapply chains_update_eq]].
    simpl. rewrite Hc. unfold afterAttempt. rewrite Hr.
    destruct (Z.ltb_spec 0 (retriesOr0 r)); [| lia]. done.
  - intros a now Hi.
    assert (chains (queued a (HostOk now) w) !! c
            = Some (mkChain i Returned p n)) as Hc1.
    { simpl. by apply lookup_app_l_Some. }
    assert (calls (queryState (queued a (HostOk now) w)) !! i
            = Some (mkCall a now (Some 0))) as Hr1.
    { simpl. rewrite Hi. apply lookup_insert_eq. }
    exists (queued a (HostOk now) w),
           (update c (mkChain i Finished p n)
              (queryState (queued a (HostOk now) w)) (queued a (HostOk now) w)).
    split; [reflexivity |]. split.
    { unfold step. rewrite Hc1. unfold afterAttempt. rewrite Hr1. reflexivity. }
    split; [reflexivity |]. by eapply chains_update_eq.
Qed.

(** A lone call fails once and succeeds; its caller calls again at once. *)
Lemma invocation_before_resumption_blocks_decay_witness :
  (∃ w',
     step (worldAfter sequentialCaller) (Continue 0) = Some w'
     ∧ numberOfFailures (queryState w') = 1 - 1)
  ∧ (∃ w1 w2,
       step (worldAfter sequentialCaller) (Invoke [2] (HostOk 30)) = Some w1
       ∧ step w1 (Continue 0) = Some w2
       ∧ numberOfFailures (queryState w2) = 1
       ∧ chains w2 !! 0%nat = Some (mkChain 0 Finished (Fulfilled 200) 2)).
Proof.
  destruct (invocation_before_resumption_blocks_decay
              (worldAfter sequentialCaller) 0%nat 0 (Fulfilled 200) 2%nat
              (mkCall [1] 10 (Some 1))
              ltac:(by_evaluation) ltac:(by_evaluation) ltac:(by_evaluation))
    as [(w' & Hs & Hnf & _) Hblock].
  split; [exists w'; by split |].
  apply (Hblock [2] 30). by_evaluation.
Defined.

(** X8.  When an attempt fails and no record is stored at the index of its
    call, the failure handler ends in a TypeError before it gets to the cap
    check or the counters: the state, the active-call entry included, is
    left as it is, no retry is scheduled, and the call is never attempted
    again; its promise stays what it is. *)
Theorem failure_without_record_drops_call :
  ∀ w c i p n e,
    chains w !! c = Some (mkChain i InFlight p n) →
    calls (queryState w) !! i = None →
    ∃ w',
      step w (FuncRejects c e) = Some w'
      ∧ queryState w' = queryState w
      ∧ ∀ evs w'',
          run w' evs = Some w'' →
          chains w'' !! c = Some (mkChain i (Unhandled TypeError) p n).
Proof.
  intros w c i p n e Hc Hr. eexists. simpl step. rewrite Hc.
  unfold handleRunErrorsAndRetries. rewrite Hr. simpl.
  split; [reflexivity |]. split; [reflexivity |].
  intros evs w'' Hrun.
  eapply run_settled; [exact Hrun | | exact I].
  by eapply chains_update_eq.
Qed.

(** The third call of [sharedThenExhausted] was given the index of the
    second, which has exhausted its retries and deleted the record. *)
Lemma failure_without_record_drops_call_witness :
  ∃ w',
    step (worldAfter (sharedThenExhausted ++ [TimerFires 2]))
      (FuncRejects 2 (Thrown 503)) = Some w'
    ∧ queryState w'
      = queryState (worldAfter (sharedThenExhausted ++ [TimerFires 2]))
    ∧ ∀ evs w'',
        run w' evs = Some w'' →
        chains w'' !! 2%nat = Some (mkChain 1 (Unhandled TypeError) Pending 1).
Proof.
  apply (failure_without_record_drops_call
           (worldAfter (sharedThenExhausted ++ [TimerFires 2])) 2%nat 1
           Pending 1%nat (Thrown 503));
    by_evaluation.
Defined.

(** ** The failure counter when no index is shared *)

Lemma total_ext (f g : Chain → Z) (l : list Chain) :
  (∀ c ch, l !! c = Some ch → g ch = f ch) → total g l = total f l.
Proof.
  induction l as [| x l IH]; intros Hfg; [done |]. simpl.
  rewrite (Hfg 0%nat x eq_refl), IH; [done |].
  intros c ch Hc. by apply (Hfg (S c)).
Qed.

Lemma total_insert_ext (f g : Chain → Z) (l : list Chain) (c : nat)
    (old new : Chain) :
  l !! c = Some old →
  (∀ c' ch, c' ≠ c → l !! c' = Some ch → g ch = f ch) →
  total g (<[c := new]> l) = total f l - f old + g new.
Proof.
  revert c. induction l as [| x l IH]; intros c Hc Hfg; [done |].
  destruct c as [| c]; simpl in *.
  - injection Hc as ->.
    rewrite (total_ext f g l); [lia |].
    intros c ch Hl. by apply (Hfg (S c)).
  - rewrite (IH _ Hc), (Hfg 0%nat x); [lia | done | done |].
    intros c' ch Hne Hl. apply (Hfg (S c')); [lia | done].
Qed.

Lemma owed_bounds (q : QueryState) (ch : Chain) : 0 ≤ owed q ch ≤ 1.
Proof.
  unfold owed. destruct (stage ch); try lia;
    (destruct (calls q !! index ch) as [r |]; [| lia]);
    destruct (0 <? retriesOr0 r); lia.
Qed.

Lemma total_owed_nonneg (q : QueryState) (l : list Chain) : 0 ≤ total (owed q) l.
Proof.
  induction l as [| x l IH]; simpl; [lia |].
  pose proof (owed_bounds q x). lia.
Qed.

Lemma owed_same_record (q q' : QueryState) (ch : Chain) :
  calls q' !! index ch = calls q !! index ch → owed q' ch = owed q ch.
Proof. intros Heq. unfold owed. by rewrite Heq. Qed.

Lemma distinct_indices (l : list Chain) (c c' : nat) (ch ch' : Chain) :
  NoDup (index <$> l) →
  l !! c = Some ch → l !! c' = Some ch' → c' ≠ c → index ch' ≠ index ch.
Proof.
  intros Hnd Hc Hc' Hne Heq. apply Hne.
  eapply (NoDup_lookup _ _ _ _ Hnd); rewrite list_lookup_fmap.
  - by rewrite Hc'.
  - rewrite Hc. simpl. by rewrite Heq.
Qed.

Lemma indices_update (w : World) (c : nat) (old new : Chain) (q : QueryState) :
  chains w !! c = Some old → index new = index old →
  index <$> chains (update c new q w) = index <$> chains w.
Proof.
  intros Hc Hi. simpl. rewrite list_fmap_insert, Hi.
  apply list_insert_id. by rewrite list_lookup_fmap, Hc.
Qed.

(** A step keeps the indices of the calls and adds at most one at the end. *)
Lemma step_indices (w w' : World) (ev : Event) :
  step w ev = Some w' →
  ∃ tl, index <$> chains w' = (index <$> chains w) ++ tl.
Proof.
  intros Hs. destruct ev as [a h | c0 | c0 v | c0 e0 | c0].
  - injection Hs as <-. destruct (chains_queued a h w) as [x ->].
    exists [index x]. by rewrite fmap_app.
  - apply step_TimerFires_inv in Hs as (i & d & p & n & Hc0 & ->).
    exists []. rewrite app_nil_r. by eapply indices_update.
  - apply step_FuncFulfils_inv in Hs as (i & p & n & Hc0 & ->).
    exists []. rewrite app_nil_r. by eapply indices_update.
  - apply step_FuncRejects_inv in Hs as (i & p & n & Hc0 & ->).
    exists []. rewrite app_nil_r. by eapply indices_update.
  - apply step_Continue_inv in Hs as (i & p & n & Hc0 & Hw).
    exists []. rewrite app_nil_r.
    destruct Hw as [(o & _ & ->) | (q & _ & ->)]; by eapply indices_update.
Qed.

Lemma run_indices (evs : list Event) (w w' : World) :
  run w evs = Some w' →
  ∃ tl, index <$> chains w' = (index <$> chains w) ++ tl.
Proof.
  revert w. induction evs as [| ev evs IH]; intros w Hr; simpl in Hr.
  - injection Hr as <-. exists []. by rewrite app_nil_r.
  - destruct (step w ev) as [w1 |] eqn:Hs; [| discriminate].
    destruct (step_indices _ _ _ Hs) as [tl1 H1].
    destruct (IH _ Hr) as [tl2 H2].
    exists (tl1 ++ tl2). by rewrite H2, H1, app_assoc.
Qed.

Lemma step_failuresCoverOwed (w w' : World) (ev : Event) :
  step w ev = Some w' →
  NoDup (index <$> chains w') →
  failuresCoverOwed w → failuresCoverOwed w'.
Proof.
  unfold failuresCoverOwed. intros Hs Hnd Hinv.
  destruct ev as [a h | c0 | c0 v | c0 e0 | c0].
  - injection Hs as <-.
    assert (∀ now x,
              NoDup (index <$> chains w ++ [x]) →
              index x = numberOfCalls (queryState w) →
              total (owed (setNumberOfCalls (numberOfCalls (queryState w) + 1)
                             (setCalls (<[numberOfCalls (queryState w)
                                          := mkCall a now (Some 0)]>
                                          (calls (queryState w))) (queryState w))))
                (chains w)
              = total (owed (queryState w)) (chains w)) as Hold.
    { intros now x Hnd' Hx. apply total_ext. intros c ch Hc.
      apply owed_same_record. simpl. apply lookup_insert_ne.
      rewrite fmap_app in Hnd'. apply NoDup_app in Hnd' as (_ & Hdisj & _).
      intros Heq. apply (Hdisj (index ch)).
      - apply list_elem_of_fmap. exists ch. split; [done |].
        by eapply list_elem_of_lookup_2.
      - simpl. rewrite Hx, Heq. apply list_elem_of_here. }
    destruct h as [now | e | now e]; simpl in *; rewrite total_app; simpl.
    + rewrite (Hold now _ Hnd eq_refl). unfold owed at 2. simpl.
      rewrite lookup_insert_eq. simpl. lia.
    + unfold owed at 2. simpl. lia.
    + rewrite (Hold now _ Hnd eq_refl). unfold owed at 2. simpl. lia.
  - apply step_TimerFires_inv in Hs as (i & d & p & n & Hc0 & ->). simpl.
    rewrite (total_insert_ext (owed (queryState w)) _ _ _ _ _ Hc0);
      [| intros; by apply owed_same_record].
    unfold owed at 2 3. simpl. lia.
  - apply step_FuncFulfils_inv in Hs as (i & p & n & Hc0 & ->). simpl.
    rewrite (total_insert_ext (owed (queryState w)) _ _ _ _ _ Hc0);
      [| intros; by apply owed_same_record].
    unfold owed at 2 3. simpl. lia.
  - apply step_FuncRejects_inv in Hs as (i & p & n & Hc0 & ->).
    erewrite indices_update in Hnd by done.
    assert (∀ c' ch (m : gmap Z CallRecord), c' ≠ c0 → chains w !! c' = Some ch →
              (∀ j, j ≠ i → m !! j = calls (queryState w) !! j) →
              m !! index ch = calls (queryState w) !! index ch) as Hothers.
    { intros c' ch m Hne Hc' Hm. apply Hm.
      by apply (distinct_indices _ _ _ _ _ Hnd Hc0 Hc'). }
    pose proof (owed_bounds (queryState w) (mkChain i InFlight p n)) as Hb.
    unfold handleRunErrorsAndRetries.
    destruct (calls (queryState w) !! i) as [r |] eqn:Hr; simpl.
    + destruct (MAX_RETRIES_PER_DAY <? retriesOr0 r); simpl.
      * rewrite (total_insert_ext (owed (queryState w)) _ _ _ _ _ Hc0).
        -- unfold owed at 3. simpl. lia.
        -- intros c' ch Hne Hc'. apply owed_same_record. simpl.
           apply (Hothers c' ch _ Hne Hc'). intros j Hj.
           by apply lookup_delete_ne.
      * rewrite (total_insert_ext (owed (queryState w)) _ _ _ _ _ Hc0).
        -- match goal with
           | |- context [owed ?q' (mkChain i (Timer ?d) p n)] =>
               pose proof (owed_bounds q' (mkChain i (Timer d) p n))
           end.
           lia.
        -- intros c' ch Hne Hc'. apply owed_same_record. simpl.
           apply (Hothers c' ch _ Hne Hc'). intros j Hj.
           by apply lookup_insert_ne.
    + rewrite (total_insert_ext (owed (queryState w)) _ _ _ _ _ Hc0);
        [| intros; by apply owed_same_record].
      unfold owed at 3. simpl. lia.
  - apply step_Continue_inv in Hs as (i & p & n & Hc0 & Hw).
    pose proof (owed_bounds (queryState w) (mkChain i Returned p n)) as Hb.
    unfold afterAttempt, handleRunErrorsAndRetries in Hw.
    destruct (calls (queryState w) !! i) as [r |] eqn:Hr.
    + destruct (0 <? retriesOr0 r) eqn:Hpos;
        destruct Hw as [(o & Ho & ->) | (q & [= <-] & ->)]; try discriminate;
        simpl;
        (rewrite (total_insert_ext (owed (queryState w)) _ _ _ _ _ Hc0);
         [| intros; by apply owed_same_record]);
        unfold owed at 2 3; simpl; rewrite Hr, Hpos; lia.
    + destruct Hw as [(o & [= <-] & ->) | (q & Hq & ->)]; [| discriminate].
      simpl.
      rewrite (total_insert_ext (owed (queryState w)) _ _ _ _ _ Hc0);
        [| intros; by apply owed_same_record].
      unfold owed at 3. simpl. lia.
Qed.

Lemma run_failuresCoverOwed (evs : list Event) (w w' : World) :
  run w evs = Some w' →
  NoDup (index <$> chains w') →
  failuresCoverOwed w → failuresCoverOwed w'.
Proof.
  revert w. induction evs as [| ev evs IH]; intros w Hr Hnd Hinv; simpl in Hr.
  - by injection Hr as <-.
  - destruct (step w ev) as [w1 |] eqn:Hs; [| discriminate].
    apply (IH w1 Hr Hnd).
    apply (step_failuresCoverOwed _ _ _ Hs); [| exact Hinv].
    destruct (run_indices _ _ _ Hr) as [tl Htl].
    rewrite Htl in Hnd. by apply NoDup_app in Hnd as (? & _).
Qed.

(** X9.  After any sequence of events on a fresh queue in which no two calls
    were given the same index, numberOfFailures is not negative: it is at
    least the number of unfinished calls whose record shows a retry. *)
Theorem failure_count_nonnegative_without_shared_index :
  ∀ evs w,
    run initialWorld evs = Some w →
    NoDup (index <$> chains w) →
    total (owed (queryState w)) (chains w) ≤ numberOfFailures (queryState w)
    ∧ 0 ≤ numberOfFailures (queryState w).
Proof.
  intros evs w Hr Hnd.
  assert (failuresCoverOwed w) as Hinv.
  { apply (run_failuresCoverOwed _ _ _ Hr Hnd).
    unfold failuresCoverOwed. simpl. lia. }
  split; [exact Hinv |].
  pose proof (total_owed_nonneg (queryState w) (chains w)).
  unfold failuresCoverOwed in Hinv. lia.
Qed.

(** Five calls made together, each failed once. *)
Lemma failure_count_nonnegative_without_shared_index_witness :
  total (owed (queryState (worldAfter fiveWaiting)))
    (chains (worldAfter fiveWaiting))
  ≤ numberOfFailures (queryState (worldAfter fiveWaiting))
  ∧ 0 ≤ numberOfFailures (queryState (worldAfter fiveWaiting)).
Proof.
  apply (failure_count_nonnegative_without_shared_index fiveWaiting).
  - by_evaluation.
  - apply (bool_decide_unpack _). vm_compute. exact I.
Defined.

(** ** One call that fails and then succeeds *)

Lemma run_app (evs1 evs2 : list Event) (w : World) :
  run w (evs1 ++ evs2) =
  match run w evs1 with Some w1 => run w1 evs2 | None => None end.
Proof.
  revert w. induction evs1 as [| ev evs1 IH]; intros w; simpl; [done |].
  destruct (step w ev); [apply IH | done].
Qed.

Lemma retriesOr0_Some (r : CallRecord) (n : Z) :
  retries r = Some n → retriesOr0 r = n.
Proof.
  intros Hr. unfold retriesOr0. rewrite Hr. destruct (Z.eqb_spec n 0); lia.
Qed.

Lemma loneCall_fails (a : list Z) (now : Z) (m : nat) (w : World) :
  loneCall a now m w → (m ≤ 300)%nat →
  ∃ w', run w (failing 0 1) = Some w' ∧ loneCall a now (S m) w'.
Proof.
  intros (Hn & Hf & Hr & Hact & d & Hch) Hm.
  destruct w as [q l]. simpl in *. subst l. simpl.
  unfold handleRunErrorsAndRetries. simpl. rewrite Hr.
  rewrite (retriesOr0_Some (mkCall a now (Some (Z.of_nat m))) (Z.of_nat m) eq_refl).
  destruct (Z.ltb_spec MAX_RETRIES_PER_DAY (Z.of_nat m)) as [Hgt | Hle];
    [unfold MAX_RETRIES_PER_DAY in Hgt; lia |].
  eexists. split; [reflexivity |].
  unfold loneCall. simpl. rewrite lookup_insert_eq.
  split; [done |]. split; [lia |].
  split; [unfold setRetries; simpl; do 3 f_equal; lia |].
  split; [| by eexists].
  intros j Hj. rewrite lookup_insert_ne by done. by apply Hact.
Qed.

Lemma loneCall_fails_often (a : list Z) (now : Z) (k m : nat) (w : World) :
  loneCall a now m w → (m + k ≤ 301)%nat →
  ∃ w', run w (failing 0 k) = Some w' ∧ loneCall a now (m + k) w'.
Proof.
  revert m w. induction k as [| k IH]; intros m w Hw Hm.
  - exists w. rewrite Nat.add_0_r. done.
  - destruct (loneCall_fails _ _ _ _ Hw) as (w1 & Hr1 & Hw1); [lia |].
    destruct (IH (S m) w1 Hw1) as (w' & Hr & Hw'); [lia |].
    exists w'. split; [| by rewrite Nat.add_succ_r].
    change (failing 0 (S k)) with (failing 0 1 ++ failing 0 k).
    by rewrite run_app, Hr1.
Qed.

(** X10.  A call on a fresh queue whose unit of work fails k times, for any
    k up to 301, and then succeeds is attempted k + 1 times and fulfilled
    with the value returned.  Its k failures have incremented
    numberOfFailures k times, and its success gives back one of them only:
    the counter is left at k - 1 (at 0 for k = 0), with no call active,
    numberOfCalls at 0 and the record still stored. *)
Theorem one_success_gives_back_one_failure :
  ∀ a now k v,
    (k ≤ 301)%nat →
    ∃ w,
      run initialWorld (failsThenSucceeds a now k v) = Some w
      ∧ chains w = [mkChain 0 Finished (Fulfilled v) (S k)]
      ∧ numberOfFailures (queryState w) = Z.max 0 (Z.of_nat k - 1)
      ∧ numberOfCalls (queryState w) = 0
      ∧ currentActiveCalls (queryState w) = ∅
      ∧ calls (queryState w) !! 0 = Some (mkCall a now (Some (Z.of_nat k))).
Proof.
  intros a now k v Hk. unfold failsThenSucceeds.
  assert (loneCall a now 0 (queued a (HostOk now) initialWorld)) as H0.
  { unfold loneCall. simpl. rewrite lookup_insert_eq.
    split; [done |]. split; [done |]. split; [done |].
    split; [intros j Hj; apply lookup_empty | by eexists]. }
  destruct (loneCall_fails_often a now k 0 _ H0) as (w1 & Hr1 & Hw1); [lia |].
  simpl in Hw1. destruct Hw1 as (Hn & Hf & Hr & Hact & d & Hch).
  change (run initialWorld (Invoke a (HostOk now) :: ?evs))
    with (run (queued a (HostOk now) initialWorld) evs).
  rewrite run_app, Hr1.
  destruct w1 as [q l]. simpl in *. subst l. simpl.
  unfold afterAttempt. simpl. rewrite Hr.
  rewrite (retriesOr0_Some (mkCall a now (Some (Z.of_nat k))) (Z.of_nat k) eq_refl).
  assert (delete 0 (<[0 := true]> (currentActiveCalls q)) = ∅) as Hempty.
  { apply map_empty. intros j. rewrite lookup_delete. case_decide; [done |].
    rewrite lookup_insert_ne by done. by apply Hact. }
  destruct (Z.ltb_spec 0 (Z.of_nat k)); simpl;
    (eexists; split; [reflexivity |]); simpl;
    (split; [done |]); (split; [lia |]); (split; [lia |]); done.
Qed.

(** A call that fails three times before it succeeds. *)
Lemma one_success_gives_back_one_failure_witness :
  ∃ w,
    run initialWorld (failsThenSucceeds [1] 10 3 200) = Some w
    ∧ chains w = [mkChain 0 Finished (Fulfilled 200) 4]
    ∧ numberOfFailures (queryState w) = Z.max 0 (Z.of_nat 3 - 1)
    ∧ numberOfCalls (queryState w) = 0
    ∧ currentActiveCalls (queryState w) = ∅
    ∧ calls (queryState w) !! 0 = Some (mkCall [1] 10 (Some (Z.of_nat 3))).
Proof.
  apply (one_success_gives_back_one_failure [1] 10 3%nat 200). lia.
Defined.

(** ** The wrapped handler and its error responses *)

Lemma catch_of_made_error (a : ApiError) :
  handlerError a → addEventHandler_catch (OwnError a) = OwnError a.
Proof.
  intros [[Hs _] | [[Hs _] | [Hs _]]]; unfold addEventHandler_catch;
    rewrite Hs; reflexivity.
Qed.

Lemma catch_of_upstream_error (e : Exn) :
  upstreamError e →
  ∃ a, addEventHandler_catch e = OwnError a ∧ handlerError a.
Proof.
  destruct e as [a | m [|] |]; simpl; try done; intros _.
  - destruct (includes m "fetch"); eexists; (split; [reflexivity |]);
      unfold handlerError; simpl; auto.
  - eexists. split; [reflexivity |]. unfold handlerError. simpl. auto.
Qed.

Lemma try_throws (toString inOperatorMessage : Json → string)
    (f : FetchOutcome) (e : Exn) :
  plainFetch f →
  addEventHandler_try toString inOperatorMessage f = Threw e →
  upstreamError e ∨ ∃ a, e = OwnError a ∧ handlerError a.
Proof.
  assert (∀ a, handlerError a →
               upstreamError (OwnError a) ∨ ∃ a', OwnError a = OwnError a'
                                                 ∧ handlerError a') as Hown
    by (intros a Ha; right; by exists a).
  unfold addEventHandler_try, handlerError in *.
  destruct f as [e0 | ok status body]; simpl.
  - intros Hpl [= <-]. by left.
  - destruct ok; simpl.
    + destruct body as [data | e0]; [| intros Hpl [= <-]; by left].
      intros _. destruct data as [| b | n | s | items | fields];
        try (intros [= <-]; by left);
        try (intros [= <-]; apply Hown; simpl; auto).
      destruct (field "success" fields) as [v |];
        [| intros [= <-]; apply Hown; simpl; auto].
      destruct (truthy v); simpl; [done |].
      intros [= <-]. apply Hown. simpl. auto.
    + intros _.
      destruct (500 <=? status); [intros [= <-]; apply Hown; simpl; auto |].
      destruct (status =? 400); [intros [= <-]; apply Hown; simpl; auto |].
      destruct (status =? 408); intros [= <-]; apply Hown; simpl; auto.
Qed.

Lemma handler_failures (toString inOperatorMessage : Json → string)
    (f : FetchOutcome) (e : Exn) :
  plainFetch f →
  addEventHandler toString inOperatorMessage f = Threw e →
  ∃ a, e = OwnError a ∧ handlerError a.
Proof.
  intros Hpl. unfold addEventHandler.
  destruct (addEventHandler_try toString inOperatorMessage f) as [d | e0] eqn:Ht;
    [done |].
  intros [= <-].
  destruct (try_throws _ _ _ _ Hpl Ht) as [Hup | (a & -> & Ha)].
  - by apply catch_of_upstream_error.
  - exists a. by rewrite catch_of_made_error.
Qed.

(** X11.  [addEventHandler] sends a reply, and returns, exactly when the
    event service answered with an ok response whose body is an object with
    a truthy [success]; what it sends and returns is that object. *)
Theorem handler_sends_exactly_on_success :
  ∀ (toString inOperatorMessage : Json → string) f data,
    addEventHandler toString inOperatorMessage f = Sent data
    ↔ ∃ status fields v,
        f = FetchResponds true status (JsonParsed (JObj fields))
        ∧ data = JObj fields
        ∧ field "success" fields = Some v ∧ truthy v = true.
Proof.
  intros toString inOp f data. unfold addEventHandler, addEventHandler_try.
  split.
  - destruct f as [e0 | [|] status [d | e0]]; simpl; try done.
    + destruct d as [| b | n | s | items | fields]; try done.
      destruct (field "success" fields) as [v |] eqn:Hf; [| done].
      destruct (truthy v) eqn:Hv; simpl; [| done].
      intros [= <-]. by exists status, fields, v.
    + destruct (500 <=? status); [done |].
      destruct (status =? 400); [done |]. by destruct (status =? 408).
    + destruct (500 <=? status); [done |].
      destruct (status =? 400); [done |]. by destruct (status =? 408).
  - intros (status & fields & v & -> & -> & Hf & Hv). simpl.
    by rewrite Hf, Hv.
Qed.

(** The answer of the mocked service to a request it serves. *)
Lemma handler_sends_exactly_on_success_witness :
  addEventHandler (λ _, "") (λ _, "") (mockResponse true)
  = Sent (JObj [("success", JBool true)]).
Proof.
  apply handler_sends_exactly_on_success.
  exists 200, [("success", JBool true)], (JBool true). done.
Defined.

(** X12.  When [fetch] and [resp.json()] fail only with errors that carry no
    [statusCode], everything [addEventHandler] throws is an [ApiError] of
    one of three kinds: 400 BAD_REQUEST, 500 INTERNAL_SERVER_ERROR or 503
    SERVICE_UNAVAILABLE. *)
Theorem handler_throws_three_kinds :
  ∀ (toString inOperatorMessage : Json → string) f e,
    plainFetch f →
    addEventHandler toString inOperatorMessage f = Threw e →
    ∃ a,
      e = OwnError a
      ∧ ((statusCode a = 400 ∧ code a = "BAD_REQUEST")
         ∨ (statusCode a = 500 ∧ code a = "INTERNAL_SERVER_ERROR")
         ∨ (statusCode a = 503 ∧ code a = "SERVICE_UNAVAILABLE")).
Proof. exact handler_failures. Qed.

(** [fetch] fails with "fetch failed". *)
Lemma handler_throws_three_kinds_witness :
  ∃ a,
    OwnError (createServiceUnavailableError "Unable to connect to event service")
    = OwnError a
    ∧ ((statusCode a = 400 ∧ code a = "BAD_REQUEST")
       ∨ (statusCode a = 500 ∧ code a = "INTERNAL_SERVER_ERROR")
       ∨ (statusCode a = 503 ∧ code a = "SERVICE_UNAVAILABLE")).
Proof.
  apply (handler_throws_three_kinds (λ _, "") (λ _, "")
           (FetchRejects (ForeignError "fetch failed" false)));
    [exact I | reflexivity].
Defined.

(** X13.  For such a failure the error handler replies with the status of
    the error, which is 400, 500 or 503; the [error] object of the body
    carries the same status, the code and the details of the error; and
    the failure is logged as an error for 500 and 503 and as a warning
    for 400. *)
Theorem handler_failure_response :
  ∀ (toString inOperatorMessage : Json → string) f e,
    plainFetch f →
    addEventHandler toString inOperatorMessage f = Threw e →
    ∃ a,
      e = OwnError a
      ∧ (errorHandler a).1.2 = statusCode a
      ∧ (statusCode a = 400 ∨ statusCode a = 500 ∨ statusCode a = 503)
      ∧ bodyStatusCode (errorHandler a).2 = statusCode a
      ∧ bodyCode (errorHandler a).2 = Some (code a)
      ∧ bodyDetails (errorHandler a).2 = details a
      ∧ (errorHandler a).1.1
        = Some (if statusCode a =? 400 then LogWarn else LogError).
Proof.
  intros toString inOp f e Hpl Hf.
  destruct (handler_failures _ _ _ _ Hpl Hf) as (a & -> & Ha).
  exists a. split; [done |].
  unfold errorHandler, createErrorResponse. simpl.
  destruct Ha as [[Hs _] | [[Hs _] | [Hs _]]]; rewrite Hs; simpl; auto 10.
Qed.

(** The service refuses a request with status 503. *)
Lemma handler_failure_response_witness :
  ∃ a,
    OwnError (createServiceUnavailableError "External event service is unavailable")
    = OwnError a
    ∧ (errorHandler a).1.2 = statusCode a
    ∧ (statusCode a = 400 ∨ statusCode a = 500 ∨ statusCode a = 503)
    ∧ bodyStatusCode (errorHandler a).2 = statusCode a
    ∧ bodyCode (errorHandler a).2 = Some (code a)
    ∧ bodyDetails (errorHandler a).2 = details a
    ∧ (errorHandler a).1.1
      = Some (if statusCode a =? 400 then LogWarn else LogError).
Proof.
  apply (handler_failure_response (λ _, "") (λ _, "") (mockResponse false));
    [exact I | reflexivity].
Defined.

(** ** The mocked service and a queued call against it *)

Lemma mockRequests_succ (n : nat) (rc : Z) :
  mockRequests (S n) rc
  = ((mockRequests n rc).1 ++ [(mockAddEvent (mockRequests n rc).2).1],
     (mockAddEvent (mockRequests n rc).2).2).
Proof.
  revert rc. induction n as [| n IH]; intros rc.
  - simpl. by destruct (mockAddEvent rc).
  - change (mockRequests (S (S n)) rc)
      with (let (served, rc1) := mockAddEvent rc in
            let (rest, rc') := mockRequests (S n) rc1 in
            (served :: rest, rc')).
    change (mockRequests (S n) rc)
      with (let (served, rc1) := mockAddEvent rc in
            let (rest, rc') := mockRequests n rc1 in
            (served :: rest, rc')).
    destruct (mockAddEvent rc) as [served rc1]. rewrite IH.
    by destruct (mockRequests n rc1).
Qed.

(** X14.  Started at 0, the request counter of the mocked service after n
    requests is n mod 15, and the next request is served exactly when
    n mod 15 < 5: the service serves five requests, refuses the next ten,
    and starts over. *)
Theorem mock_service_has_period_15 :
  ∀ n : nat,
    (mockRequests n 0).2 = Z.of_nat n mod 15
    ∧ (mockAddEvent (mockRequests n 0).2).1 = (Z.of_nat n mod 15 <? 5).
Proof.
  assert (∀ n : nat, (mockRequests n 0).2 = Z.of_nat n mod 15) as Hcount.
  { induction n as [| n IH]; [reflexivity |].
    rewrite mockRequests_succ. simpl snd. rewrite IH.
    unfold mockAddEvent.
    pose proof (Z.mod_pos_bound (Z.of_nat n) 15 ltac:(lia)) as Hb.
    assert (Z.of_nat (S n) mod 15
            = if Z.of_nat n mod 15 =? 14 then 0 else Z.of_nat n mod 15 + 1)
      as ->.
    { rewrite Nat2Z.inj_succ. unfold Z.succ.
      destruct (Z.eqb_spec (Z.of_nat n mod 15) 14) as [He | Hne].
      - rewrite Z.add_mod, He by lia. reflexivity.
      - rewrite Z.add_mod by lia. rewrite (Z.mod_small 1) by lia.
        apply Z.mod_small. lia. }
    destruct (Z.leb_spec (Z.of_nat n mod 15 + 1) 5);
      destruct (Z.eqb_spec (Z.of_nat n mod 15 + 1) 0);
      destruct (Z.leb_spec 15 (Z.of_nat n mod 15 + 1));
      destruct (Z.eqb_spec (Z.of_nat n mod 15) 14); simpl; lia. }
  intros n. split; [apply Hcount |]. rewrite Hcount.
  unfold mockAddEvent.
  pose proof (Z.mod_pos_bound (Z.of_nat n) 15 ltac:(lia)) as Hb.
  destruct (Z.leb_spec (Z.of_nat n mod 15 + 1) 5);
    destruct (Z.eqb_spec (Z.of_nat n mod 15 + 1) 0);
    destruct (Z.ltb_spec (Z.of_nat n mod 15) 5); simpl; try reflexivity; lia.
Qed.





(** ** A burst of invocations *)

Lemma timerDelay_ext (q q' : QueryState) :
  numberOfFailures q' = numberOfFailures q →
  currentActiveCalls q' = currentActiveCalls q →
  timerDelay q' = timerDelay q.
Proof.
  intros Hf Ha. unfold timerDelay, areActiveCallsFull, backOff.
  by rewrite Hf, Ha.
Qed.

(** X16.  Invocations that arrive in a burst are not spaced out: whatever
    the state of the queue, each of them is given the next index and a
    timer with one and the same delay, the delay of the state in which the
    burst began; the burst adds its size to numberOfCalls and leaves the
    failure counter and the active calls as they are. *)
Theorem burst_is_scheduled_with_one_delay :
  ∀ invocations w,
    ∃ w',
      run w (burst invocations) = Some w'
      ∧ chains w'
        = chains w
          ++ burstChains (numberOfCalls (queryState w))
               (timerDelay (queryState w)) (length invocations)
      ∧ numberOfCalls (queryState w')
        = numberOfCalls (queryState w) + Z.of_nat (length invocations)
      ∧ numberOfFailures (queryState w') = numberOfFailures (queryState w)
      ∧ currentActiveCalls (queryState w') = currentActiveCalls (queryState w).
Proof.
  induction invocations as [| [a now] invocations IH]; intros w.
  - exists w. simpl. rewrite app_nil_r. split; [done |]. split; [done |].
    split; [lia | done].
  - destruct (IH (queued a (HostOk now) w)) as (w' & Hr & Hch & Hn & Hf & Ha).
    exists w'. split; [exact Hr |].
    destruct (queued_registers w a now) as (Hch1 & _ & Hn1 & Hf1 & Ha1).
    rewrite Hch, Hn, Hf, Ha, Hch1, Hn1, Hf1, Ha1.
    rewrite (timerDelay_ext (queryState (queued a (HostOk now) w))
               (queryState w) Hf1 Ha1).
    split; [by rewrite <- app_assoc |].
    split; [simpl length; lia | done].
Qed.

(** ** The events of a user *)

Lemma fetchEachEvent_inr (toString : Json → string)
    (userEvents : list (Json * EventOutcome)) :
  ∀ eventArray failedEvents found missing,
    fetchEachEvent toString userEvents eventArray failedEvents
    = inr (found, missing) →
    found = eventArray ++ foundBodies userEvents
    ∧ missing = failedEvents ++ missingIds userEvents
    ∧ (length (foundBodies userEvents) + length (missingIds userEvents)
       = length userEvents)%nat
    ∧ Forall (λ p, answered p.2) userEvents.
Proof.
  induction userEvents as [| [eventId o] rest IH];
    intros eventArray failedEvents found missing Hf; simpl in Hf.
  - injection Hf as <- <-. by rewrite !app_nil_r.
  - destruct o as [e | ok status body]; [done |]. simpl.
    destruct (negb ok && (status =? 404)) eqn:H404.
    + destruct (IH _ _ _ _ Hf) as (-> & -> & Hlen & Hall).
      rewrite <- app_assoc. simpl.
      split; [by destruct body |]. split; [done |].
      split; [destruct body; simpl; lia |].
      constructor; [by left | done].
    + destruct body as [d | e]; [| done].
      destruct (IH _ _ _ _ Hf) as (-> & -> & Hlen & Hall).
      rewrite <- app_assoc. simpl.
      split; [done |]. split; [done |]. split; [lia |].
      constructor; [right; by exists d | done].
Qed.

(** X17.  [getEventsByUserIdHandler] sends a reply only when the user was
    fetched and every fetch of an event answered, with 404 or with a body
    that parsed.  The reply then accounts for every event of the user, in
    order: the bodies of the events found, and the ids of those that
    answered 404 as missing. *)
Theorem events_reply_accounts_for_every_event :
  ∀ (toString : Json → string) (isNaNNumber : string → bool) id user data,
    getEventsByUserIdHandler toString isNaNNumber id user = Sent data →
    ∃ status userEvents,
      user = UserResponds true status (UserParsed userEvents)
      ∧ data = eventsReply toString (foundBodies userEvents)
                 (missingIds userEvents)
      ∧ (length (foundBodies userEvents) + length (missingIds userEvents)
         = length userEvents)%nat
      ∧ Forall (λ p, answered p.2) userEvents.
Proof.
  intros toString isNaNNumber id user data.
  unfold getEventsByUserIdHandler, getEventsByUserId_try.
  destruct (String.eqb id "" || isNaNNumber id); [done |].
  destruct user as [e | [|] status [e | userEvents]]; simpl; try done.
  - destruct (fetchEachEvent toString userEvents [] [])
      as [a | [found missing]] eqn:Hf; [done |].
    intros [= <-].
    destruct (fetchEachEvent_inr _ _ _ _ _ _ Hf) as (-> & -> & Hlen & Hall).
    by exists status, userEvents.
  - by destruct (status =? 404).
  - by destruct (status =? 404).
Qed.

(** A user with three events, the second of which is gone. *)
Lemma events_reply_accounts_for_every_event_witness :
  ∃ status userEvents,
    UserResponds true 200
      (UserParsed
         [(JNum 1, EventResponds true 200 (JsonParsed (JStr "first")));
          (JNum 2, EventResponds false 404 (JsonParsed JNull));
          (JNum 3, EventResponds true 200 (JsonParsed (JStr "third")))])
    = UserResponds true status (UserParsed userEvents)
    ∧ JObj [("events", JArr [JStr "first"; JStr "third"]);
            ("warnings",
             JObj [("missingEvents", JArr [JNum 2]);
                   ("message", JStr "1 event(s) could not be found")])]
      = eventsReply (λ _, "1") (foundBodies userEvents) (missingIds userEvents)
    ∧ (length (foundBodies userEvents) + length (missingIds userEvents)
       = length userEvents)%nat
    ∧ Forall (λ p, answered p.2) userEvents.
Proof.
  apply (events_reply_accounts_for_every_event (λ _, "1") (λ _, false) "7").
  reflexivity.
Defined.

Lemma fetchEachEvent_inl (toString : Json → string)
    (userEvents : list (Json * EventOutcome)) :
  ∀ eventArray failedEvents a,
    fetchEachEvent toString userEvents eventArray failedEvents = inl a →
    statusCode a = 500 ∧ code a = "INTERNAL_SERVER_ERROR".
Proof.
  induction userEvents as [| [eventId o] rest IH];
    intros eventArray failedEvents a Hf; simpl in Hf; [done |].
  destruct o as [e | ok status body]; [by injection Hf as <- |].
  destruct (negb ok && (status =? 404)); [by eapply IH |].
  destruct body as [d | e]; [by eapply IH | by injection Hf as <-].
Qed.

(** X18.  An empty or non-numeric id is answered with 404 NOT_FOUND before
    anything is fetched.  Otherwise, when the fetch of the user fails only
    with errors that carry no [statusCode], everything the handler throws
    is a 404 NOT_FOUND or a 500 INTERNAL_SERVER_ERROR; a failed fetch of a
    single event makes the whole request fail with 500. *)
Theorem events_by_user_failures :
  ∀ (toString : Json → string) (isNaNNumber : string → bool) id user,
    (String.eqb id "" || isNaNNumber id = true →
     getEventsByUserIdHandler toString isNaNNumber id user
     = Threw (OwnError (createNotFoundError "User")))
    ∧ (∀ e,
         plainUser user →
         getEventsByUserIdHandler toString isNaNNumber id user = Threw e →
         ∃ a,
           e = OwnError a
           ∧ ((statusCode a = 404 ∧ code a = "NOT_FOUND")
              ∨ (statusCode a = 500 ∧ code a = "INTERNAL_SERVER_ERROR")))
    ∧ (∀ status userEvents,
         String.eqb id "" || isNaNNumber id = false →
         user = UserResponds true status (UserParsed userEvents) →
         ¬ Forall (λ p, answered p.2) userEvents →
         ∃ a,
           getEventsByUserIdHandler toString isNaNNumber id user
           = Threw (OwnError a)
           ∧ statusCode a = 500).
Proof.
  intros toString isNaNNumber id user.
  unfold getEventsByUserIdHandler, getEventsByUserId_try.
  split; [by intros -> |]. split.
  - intros e Hpl.
    destruct (String.eqb id "" || isNaNNumber id);
      [intros [= <-]; eexists; split; [done | by left] |].
    destruct user as [e0 | ok status [e0 | userEvents]]; simpl in *.
    + destruct e0 as [a | m [|] |]; try done; simpl; intros [= <-];
        eexists; (split; [done | by right]).
    + destruct ok; simpl.
      * destruct e0 as [a | m [|] |]; try done; simpl; intros [= <-];
          eexists; (split; [done | by right]).
      * destruct (status =? 404); simpl; intros [= <-];
          eexists; (split; [done |]); [by left | by right].
    + destruct ok; simpl.
      * destruct (fetchEachEvent toString userEvents [] [])
          as [a | [found missing]] eqn:Hf; [| done].
        destruct (fetchEachEvent_inl _ _ _ _ _ Hf) as [Hs Hc].
        simpl. rewrite Hs. simpl. intros [= <-]. exists a. by split; [| right].
      * destruct (status =? 404); simpl; intros [= <-];
          eexists; (split; [done |]); [by left | by right].
  - intros status userEvents -> -> Hnot. simpl.
    destruct (fetchEachEvent toString userEvents [] [])
      as [a | [found missing]] eqn:Hf.
    + destruct (fetchEachEvent_inl _ _ _ _ _ Hf) as [Hs Hc].
      exists a. simpl. rewrite Hs. simpl. done.
    + by destruct (fetchEachEvent_inr _ _ _ _ _ _ Hf) as (_ & _ & _ & Hall).
Qed.

(** The second of two events cannot be fetched. *)
Lemma events_by_user_failures_witness :
  ∃ a,
    getEventsByUserIdHandler (λ _, "2") (λ _, false) "7"
      (UserResponds true 200
         (UserParsed
            [(JNum 1, EventResponds true 200 (JsonParsed (JStr "first")));
             (JNum 2, EventRejects (ForeignError "fetch failed" false))]))
    = Threw (OwnError a)
    ∧ statusCode a = 500.
Proof.
  destruct (events_by_user_failures (λ _, "2") (λ _, false) "7"
              (UserResponds true 200
                 (UserParsed
                    [(JNum 1, EventResponds true 200 (JsonParsed (JStr "first")));
                     (JNum 2, EventRejects (ForeignError "fetch failed" false))])))
    as (_ & _ & Hloop).
  apply (Hloop 200 _ eq_refl eq_refl).
  intros Hall. apply Forall_cons in Hall as [_ Hall].
  apply Forall_cons in Hall as [Hbad _]. exact Hbad.
Defined.

(** ** The list handlers *)

Lemma unavailable_not_delivered (f : FetchOutcome) :
  unavailable f → ¬ delivered f.
Proof.
  intros [(st & b & -> & _) | (m & [-> | (st & ->)] & _)] (st' & d & Heq);
    discriminate.
Qed.

Ltac refute_unavailable :=
  let Heq := fresh "Heq" in
  intros [(? & ? & Heq & ?) | (? & [Heq | (? & Heq)] & ?)];
  try discriminate; injection Heq as <-; (congruence || lia).

Ltac refute_delivered :=
  let Heq := fresh "Heq" in intros (? & ? & Heq); discriminate.

(** The three ways a list handler ends. *)
Lemma list_handler_table (toString : Json → string) (f : FetchOutcome)
    (handler : FetchOutcome → HandlerResult) :
  plainFetch f →
  handler = getEventsHandler toString ∨ handler = getUsersHandler toString →
  (∃ status data,
     f = FetchResponds true status (JsonParsed data) ∧ handler f = Sent data)
  ∨ (unavailable f
     ∧ ∃ a, handler f = Threw (OwnError a)
            ∧ statusCode a = 503 ∧ code a = "SERVICE_UNAVAILABLE")
  ∨ (¬ unavailable f ∧ ¬ delivered f
     ∧ ∃ a, handler f = Threw (OwnError a)
            ∧ statusCode a = 500 ∧ code a = "INTERNAL_SERVER_ERROR").
Proof.
  intros Hpl Hh.
  assert (∀ m, includes m "fetch" = true →
               unavailable (FetchRejects (ForeignError m false))) as Hnet
    by (intros m Hm; right; exists m; auto).
  assert (∀ m status, includes m "fetch" = true →
               unavailable (FetchResponds true status
                              (JsonRejects (ForeignError m false)))) as Hbody
    by (intros m status Hm; right; exists m; eauto).
  assert (∀ status body, 500 ≤ status →
               unavailable (FetchResponds false status body)) as Hdown
    by (intros status body Hst; left; eauto).
  destruct Hh as [-> | ->]; unfold getEventsHandler, getUsersHandler;
    (destruct f as [e | [|] status [d | e]]; simpl in *;
     [ destruct e as [a | m [|] |]; try done;
       [ destruct (includes m "fetch") eqn:Hm;
         [ right; left; split; [by apply Hnet | by eexists]
         | right; right; split; [refute_unavailable |];
           split; [refute_delivered | by eexists] ]
       | right; right; split; [refute_unavailable |];
         split; [refute_delivered | by eexists] ]
     | left; by exists status, d
     | destruct e as [a | m [|] |]; try done;
       [ destruct (includes m "fetch") eqn:Hm;
         [ right; left; split; [by apply Hbody | by eexists]
         | right; right; split; [refute_unavailable |];
           split; [refute_delivered | by eexists] ]
       | right; right; split; [refute_unavailable |];
         split; [refute_delivered | by eexists] ]
     | destruct (Z.leb_spec 500 status); simpl;
       [ right; left; split; [by apply Hdown | by eexists]
       | right; right; split; [refute_unavailable |];
         split; [refute_delivered | by eexists] ]
     | destruct (Z.leb_spec 500 status); simpl;
       [ right; left; split; [by apply Hdown | by eexists]
       | right; right; split; [refute_unavailable |];
         split; [refute_delivered | by eexists] ] ]).
Qed.

(** X19.  What [getEventsHandler] and [getUsersHandler] do is settled by the
    fetch, when it fails only with errors that carry no [statusCode].  They
    send a body exactly when the response is ok and its body parses, and
    the body sent is the parsed one, unexamined.  They throw a 503
    SERVICE_UNAVAILABLE exactly when the response is not ok with a status
    of 500 or more, or [fetch] or [resp.json()] failed with an error whose
    message contains "fetch".  In every other case they throw a 500
    INTERNAL_SERVER_ERROR. *)
Theorem list_handlers_outcomes :
  ∀ (toString : Json → string) f,
    plainFetch f →
    ∀ handler,
      handler = getEventsHandler toString ∨ handler = getUsersHandler toString →
      (∀ data,
         handler f = Sent data
         ↔ ∃ status, f = FetchResponds true status (JsonParsed data))
      ∧ ((∃ a, handler f = Threw (OwnError a)
               ∧ statusCode a = 503 ∧ code a = "SERVICE_UNAVAILABLE")
         ↔ unavailable f)
      ∧ ((∃ a, handler f = Threw (OwnError a)
               ∧ statusCode a = 500 ∧ code a = "INTERNAL_SERVER_ERROR")
         ↔ ¬ unavailable f ∧ ¬ delivered f).
Proof.
  intros toString f Hpl handler Hh.
  destruct (list_handler_table toString f handler Hpl Hh)
    as [(st & d & Hf & Hsent)
       | [(Hun & a & Ha & Hst & Hcode) | (Hnu & Hnd & a & Ha & Hst & Hcode)]].
  - split; [| split].
    + intros data. split.
      * intros Hd. exists st. congruence.
      * intros (st' & Hf'). congruence.
    + split.
      * intros (a & Ha & _). congruence.
      * intros Hun. exfalso.
        apply (unavailable_not_delivered f Hun). by exists st, d.
    + split.
      * intros (a & Ha & _). congruence.
      * intros [_ Hnd]. exfalso. apply Hnd. by exists st, d.
  - split; [| split].
    + intros data. split.
      * intros Hd. congruence.
      * intros (st' & Hf'). exfalso.
        apply (unavailable_not_delivered f Hun). by exists st', data.
    + split; [done | intros _; by exists a].
    + split.
      * intros (a' & Ha' & Hst' & _).
        rewrite Ha in Ha'. injection Ha' as <-. lia.
      * by intros [Hnu _].
  - split; [| split].
    + intros data. split.
      * intros Hd. congruence.
      * intros (st' & Hf'). exfalso. apply Hnd. by exists st', data.
    + split.
      * intros (a' & Ha' & Hst' & _).
        rewrite Ha in Ha'. injection Ha' as <-. lia.
      * done.
    + split; [done | intros _; by exists a].
Qed.

(** The service cannot be reached: the handler for the events throws a
    503. *)
Lemma list_handlers_outcomes_witness :
  ∃ a,
    getEventsHandler (λ _, "") (FetchRejects (ForeignError "fetch failed" false))
    = Threw (OwnError a)
    ∧ statusCode a = 503 ∧ code a = "SERVICE_UNAVAILABLE".
Proof.
  destruct (list_handlers_outcomes (λ _, "")
              (FetchRejects (ForeignError "fetch failed" false)) I
              (getEventsHandler (λ _, "")) (or_introl eq_refl))
    as (_ & Hdown & _).
  apply Hdown. right. exists "fetch failed". split; [by left | reflexivity].
Defined.

(** ** Where the failure counter changes, and the least delay *)

Lemma handler_failures_delta (i : Z) (q : QueryState) :
  (numberOfFailures (stateOf (handleRunErrorsAndRetries retryCallback i q))
   = numberOfFailures q
   ∧ ∃ e, stageOf (handleRunErrorsAndRetries retryCallback i q) = Unhandled e)
  ∨ (numberOfFailures (stateOf (handleRunErrorsAndRetries retryCallback i q))
     = numberOfFailures q + 1
     ∧ ∃ d, stageOf (handleRunErrorsAndRetries retryCallback i q) = Timer d).
Proof.
  unfold handleRunErrorsAndRetries.
  destruct (calls q !! i) as [r |]; [| left; split; [done | by eexists]].
  destruct (MAX_RETRIES_PER_DAY <? retriesOr0 r);
    [left | right]; (split; [done | by eexists]).
Qed.

Lemma afterAttempt_inl_no_record (i : Z) (q : QueryState) (o : RetryOutcome) :
  afterAttempt i q = inl o → calls q !! i = None.
Proof.
  unfold afterAttempt. destruct (calls q !! i) as [r |]; [| done].
  by destruct (0 <? retriesOr0 r).
Qed.

(** X20.  A step of the queue moves numberOfFailures by at most 1, and it is
    settled by the step which way: the counter goes up by 1 exactly when
    the step is the failure of an attempt that leaves the call waiting for
    a retry, and down by 1 exactly when the step is the resumption of the
    timer callback after a successful attempt that finds a retry count
    above 0 in the record at the call's index.  Every other step, that is
    invocations, timers, returning attempts, failures that end the call and
    resumptions that find no retries, leaves the counter as it is. *)
Theorem failure_counter_changes_in_two_places :
  ∀ w ev w',
    step w ev = Some w' →
    (numberOfFailures (queryState w') = numberOfFailures (queryState w) + 1
     ↔ ∃ c e ch d,
         ev = FuncRejects c e ∧ chains w' !! c = Some ch ∧ stage ch = Timer d)
    ∧ (numberOfFailures (queryState w') = numberOfFailures (queryState w) - 1
       ↔ ∃ c ch r,
           ev = Continue c ∧ chains w !! c = Some ch
           ∧ calls (queryState w) !! index ch = Some r ∧ 0 < retriesOr0 r)
    ∧ (numberOfFailures (queryState w') = numberOfFailures (queryState w)
       ∨ numberOfFailures (queryState w') = numberOfFailures (queryState w) + 1
       ∨ numberOfFailures (queryState w') = numberOfFailures (queryState w) - 1).
Proof.
  intros w ev w' Hs. destruct ev as [a h | c0 | c0 v | c0 e0 | c0].
  - injection Hs as <-.
    assert (numberOfFailures (queryState (queued a h w))
            = numberOfFailures (queryState w)) as -> by (by destruct h).
    split; [split; [lia | by intros (? & ? & ? & ? & ? & _)] |].
    split; [split; [lia | by intros (? & ? & ? & ? & _)] | by left].
  - apply step_TimerFires_inv in Hs as (i & d & p & n & _ & ->). simpl.
    split; [split; [lia | by intros (? & ? & ? & ? & ? & _)] |].
    split; [split; [lia | by intros (? & ? & ? & ? & _)] | by left].
  - apply step_FuncFulfils_inv in Hs as (i & p & n & _ & ->). simpl.
    split; [split; [lia | by intros (? & ? & ? & ? & ? & _)] |].
    split; [split; [lia | by intros (? & ? & ? & ? & _)] | by left].
  - apply step_FuncRejects_inv in Hs as (i & p & n & Hc0 & ->). simpl.
    assert (<[c0 := mkChain i
                (stageOf (handleRunErrorsAndRetries retryCallback i (queryState w)))
                p n]> (chains w) !! c0
            = Some (mkChain i
                (stageOf (handleRunErrorsAndRetries retryCallback i (queryState w)))
                p n)) as Hnew
      by (apply list_lookup_insert_eq; by eapply lookup_lt_Some).
    destruct (handler_failures_delta i (queryState w))
      as [[Hsame [e1 He1]] | [Hup [d Hd]]].
    + rewrite Hsame.
      split; [split; [lia |] |].
      { intros (c & e & ch & d & Hev & Hch & Hst).
        injection Hev as <- _. rewrite Hnew in Hch. injection Hch as <-.
        simpl in Hst. congruence. }
      split; [split; [lia | by intros (? & ? & ? & ? & _)] | by left].
    + rewrite Hup.
      split; [split; [intros _ | done] |].
      { exists c0, e0,
          (mkChain i
             (stageOf (handleRunErrorsAndRetries retryCallback i (queryState w)))
             p n), d.
        done. }
      split; [split; [lia | by intros (? & ? & ? & ? & _)] | right; by left].
  - apply step_Continue_inv in Hs as (i & p & n & Hc0 & Hw).
    destruct Hw as [(o & Ho & ->) | (q & Hq & ->)]; simpl.
    + pose proof (afterAttempt_inl_no_record _ _ _ Ho) as Hnone.
      apply afterAttempt_inl_missing in Ho as ->. simpl.
      split; [split; [lia | by intros (? & ? & ? & ? & ? & _)] |].
      split; [split; [lia |] | by left].
      intros (c & ch & r & Hev & Hch & Hr & _).
      injection Hev as <-. rewrite Hc0 in Hch. injection Hch as <-.
      simpl in Hr. congruence.
    + unfold afterAttempt in Hq.
      destruct (calls (queryState w) !! i) as [r |] eqn:Hr; [| done].
      destruct (Z.ltb_spec 0 (retriesOr0 r)); injection Hq as <-; simpl.
      * split; [split; [lia | by intros (? & ? & ? & ? & ? & _)] |].
        split; [split; [intros _ | done] | right; by right].
        exists c0, (mkChain i Returned p n), r. by simpl.
      * split; [split; [lia | by intros (? & ? & ? & ? & ? & _)] |].
        split; [split; [lia |] | by left].
        intros (c & ch & r' & Hev & Hch & Hr' & Hpos).
        injection Hev as <-. rewrite Hc0 in Hch. injection Hch as <-.
        simpl in Hr'. rewrite Hr in Hr'. injection Hr' as <-. lia.
Qed.

(** The first failure of a call: the counter goes from 0 to 1, and the
    call waits for its retry. *)
Lemma failure_counter_changes_in_two_places_witness :
  numberOfFailures (queryState (worldAfter (alwaysFailing 1)))
  = numberOfFailures (queryState (worldAfter (take 2 (alwaysFailing 1)))) + 1
  ∧ ∃ c e ch d,
      FuncRejects 0 (Thrown 503) = FuncRejects c e
      ∧ chains (worldAfter (alwaysFailing 1)) !! c = Some ch
      ∧ stage ch = Timer d.
Proof.
  assert (step (worldAfter (take 2 (alwaysFailing 1))) (FuncRejects 0 (Thrown 503))
          = Some (worldAfter (alwaysFailing 1))) as Hs by by_evaluation.
  destruct (failure_counter_changes_in_two_places _ _ _ Hs) as (Hup & _ & _).
  assert (numberOfFailures (queryState (worldAfter (alwaysFailing 1)))
          = numberOfFailures (queryState (worldAfter (take 2 (alwaysFailing 1)))) + 1)
    as Hone by by_evaluation.
  split; [exact Hone | by apply Hup].
Defined.

Lemma pow2_positive (e : Z) : (0 < pow2 e)%Q ↔ -1074 ≤ e.
Proof.
  unfold pow2. destruct (Z.ltb_spec e (-1074)) as [Hlow | Hok].
  - split; [intros Hpos; by apply Qlt_irrefl in Hpos | lia].
  - split; [done | intros _; by apply Qpower_0_lt].
Qed.

Lemma pow2_below_spacing (e : Z) : e < -46 → (pow2 e < Qpower 2 (-46))%Q.
Proof.
  intros He. unfold pow2. destruct (e <? -1074); [reflexivity |].
  apply Qlt_le_trans with (y := (Qpower 2 (e + 1) * 1)%Q).
  - rewrite Qmult_1_r, Qpower_plus by discriminate.
    rewrite <- (Qmult_1_r (Qpower 2 e)) at 1.
    apply Qmult_lt_l; [by apply Qpower_0_lt | reflexivity].
  - rewrite Qmult_1_r. apply Qpower_le_compat_l; [lia | discriminate].
Qed.

Lemma plus100_above_100 (e : Z) : (100 < plus100 (pow2 e))%Q ↔ -46 ≤ e.
Proof.
  split.
  - intros Hgt. destruct (Z.le_gt_cases (-46) e) as [| Hlow]; [done |].
    rewrite plus100_rounded in Hgt by (apply pow2_below_spacing; lia).
    by apply Qlt_irrefl in Hgt.
  - intros He. rewrite pow2_exact by lia.
    rewrite plus100_exact by (apply Qpower_le_compat_l; [lia | discriminate]).
    rewrite <- (Qplus_0_r 100) at 1. apply Qplus_lt_r. by apply Qpower_0_lt.
Qed.

(** X21.  The delay of a timer is never negative; it is at least 1 when the
    failure counter is not negative, and at least 100 when the queue is
    saturated.  A negative failure counter shortens it, and in the double
    arithmetic of the code the backoff then vanishes altogether: in an
    unsaturated queue the delay is positive exactly down to a counter of
    -1074 and is 0 below, and in a saturated queue it is more than 100
    exactly down to a counter of -46 and is 100 below. *)
Theorem delay_bounds_from_below :
  ∀ q,
    (0 <= timerDelay q)%Q
    ∧ (0 ≤ numberOfFailures q → (1 <= timerDelay q)%Q)
    ∧ (areActiveCallsFull q = true → (100 <= timerDelay q)%Q)
    ∧ (areActiveCallsFull q = false →
       ((0 < timerDelay q)%Q ↔ -1074 ≤ numberOfFailures q)
       ∧ (numberOfFailures q < -1074 → timerDelay q = 0%Q))
    ∧ (areActiveCallsFull q = true →
       ((100 < timerDelay q)%Q ↔ -46 ≤ numberOfFailures q)
       ∧ (numberOfFailures q < -46 → timerDelay q = 100%Q)).
Proof.
  intros q. unfold timerDelay.
  pose proof (backOff_nonneg q) as Hnn.
  pose proof (plus100_ge_100 (backOff q)) as H100.
  destruct (areActiveCallsFull q).
  - split; [eapply Qle_trans; [| exact H100]; discriminate |].
    split; [intros _; eapply Qle_trans; [| exact H100]; discriminate |].
    split; [done |]. split; [done |]. intros _. unfold backOff.
    rewrite capped_exponent. split.
    + rewrite plus100_above_100. lia.
    + intros Hlow. apply plus100_rounded, pow2_below_spacing. lia.
  - split; [exact Hnn |]. split; [apply backOff_ge_1 |]. split; [done |].
    split; [| done]. intros _. unfold backOff. rewrite capped_exponent. split.
    + rewrite pow2_positive. lia.
    + intros Hlow. unfold pow2.
      destruct (Z.ltb_spec (Z.min (numberOfFailures q) 3) (-1074)); [done | lia].
Qed.

(** The world with five waiting calls, and an idle queue whose failure
    counter stands at -1075. *)
Lemma delay_bounds_from_below_witness :
  (1 <= timerDelay (queryState (worldAfter fiveWaiting)))%Q
  ∧ (100 <= timerDelay (queryState (worldAfter fiveWaiting)))%Q
  ∧ (100 < timerDelay (queryState (worldAfter fiveWaiting)))%Q
  ∧ timerDelay (mkState 0 (-1075) ∅ ∅) = 0%Q.
Proof.
  destruct (delay_bounds_from_below (queryState (worldAfter fiveWaiting)))
    as (_ & Hone & Hfull & _ & Hsat).
  destruct (delay_bounds_from_below (mkState 0 (-1075) ∅ ∅))
    as (_ & _ & _ & Hidle & _).
  split; [apply Hone; vm_compute; discriminate |].
  split; [apply Hfull; by_evaluation |].
  split; [apply Hsat; [by_evaluation | vm_compute; discriminate] |].
  apply Hidle; [by_evaluation | simpl; lia].
Defined.
